(** * Parking allotment: allocation, billing, persistence and analytics

    A shallow embedding of the state-handling part of [app.js]: the global
    [STATE] object, the fee rule, slot allocation, vehicle removal, the
    [localStorage] snapshot and the revenue series.  The DOM is left out;
    what a handler shows to the user is kept as a list of [ui] events. *)

From Stdlib Require Import ZArith Lia Ascii String.
From stdpp Require Import base decidable option list gmap strings pretty sorting.

Local Open Scope Z_scope.

(** ** Data model *)

(** [slot.vehicle = { number, owner, type }] *)
Module Vehicle.
Record t := mk { number : string; owner : string; type : string }.
End Vehicle.

(** An element of [STATE.slots]: [{id, type, occupied, vehicle, entryTime}].
    [type] is [None] for the JavaScript value [undefined], which is what
    [typesByRow[i % 0]] yields for an empty [typesByRow]; [vehicle] and
    [entryTime] are [None] for [null]. *)
Module Slot.
Record t := mk {
  id : Z;
  type : option string;
  occupied : bool;
  vehicle : option Vehicle.t;
  entryTime : option Z
}.
End Slot.

(** An element of [STATE.history]. *)
Module HistoryRecord.
Record t := mk {
  vehicleNumber : string;
  owner : string;
  type : string;
  slotId : Z;
  entryTime : option Z;
  exitTime : Z;
  durationMs : Z;
  fee : Z
}.
End HistoryRecord.

(** [STATE.config.fee] and [STATE.config]. *)
Module Fee.
Record t := mk { baseMinutes : Z; basePrice : Z; hourlyAfter : Z }.
End Fee.

Module Config.
Record t := mk { totalSlots : Z; typesByRow : list string; fee : Fee.t }.
End Config.

(** The global [STATE].  [timers] maps a slot id to an interval handle; the
    handles are opaque browser tokens, so only the set of keys is kept. *)
Record State := mkState {
  slots : list Slot.t;
  history : list HistoryRecord.t;
  config : Config.t;
  theme : string;
  timers : gset Z
}.

Definition default_config : Config.t :=
  Config.mk 48 ["car"; "bike"; "truck"]%string (Fee.mk 30 20 50).

(** The [STATE] literal at the top of the script, for a given [config]. *)
Definition STATE0 (cfg : Config.t) : State :=
  mkState [] [] cfg "dark" ∅.

Definition set_slots (ss : list Slot.t) (st : State) : State :=
  mkState ss (history st) (config st) (theme st) (timers st).
Definition set_history (hs : list HistoryRecord.t) (st : State) : State :=
  mkState (slots st) hs (config st) (theme st) (timers st).
Definition set_timers (ts : gset Z) (st : State) : State :=
  mkState (slots st) (history st) (config st) (theme st) ts.
Definition set_theme (th : string) (st : State) : State :=
  mkState (slots st) (history st) (config st) th (timers st).

(** ** Fee policy *)

(** [Math.ceil(a / b)] for integers [a] and [b > 0].  The script computes
    the quotient in double precision; for the millisecond counts at hand
    (far below 2^53) that agrees with the exact ceiling used here. *)
Definition ceil_div (a b : Z) : Z := - ((- a) / b).

Definition computeFee (st : State) (ms : Z) : Z :=
  let '(Fee.mk baseMinutes basePrice hourlyAfter) := Config.fee (config st) in
  let minutes := ceil_div ms 60000 in
  if minutes <=? baseMinutes then basePrice
  else
    let extraMinutes := minutes - baseMinutes in
    let extraHoursRoundedUp := ceil_div extraMinutes 60 in
    basePrice + extraHoursRoundedUp * hourlyAfter.

(** ** Registry initialisation *)

(** The object pushed by one turn of the loop in [initSlots].  For [i >= 1]
    and a non-empty [typesByRow], JavaScript's [%] is [Z.rem]; for an empty
    one the index is [NaN] and the lookup yields [undefined], which is what
    the list lookup returns on the empty list. *)
Definition new_slot (st : State) (i : Z) : Slot.t :=
  let typesByRow := Config.typesByRow (config st) in
  let type := typesByRow !! Z.to_nat (Z.rem i (Z.of_nat (length typesByRow))) in
  Slot.mk i type false None None.

(** [for (let i = ...; i <= totalSlots; i++) STATE.slots.push(...)], with
    [n] the number of turns left. *)
Fixpoint initSlots_loop (n : nat) (i : Z) (st : State) : State :=
  match n with
  | O => st
  | S n' => initSlots_loop n' (i + 1) (set_slots (slots st ++ [new_slot st i]) st)
  end.

Definition initSlots (st : State) : State :=
  if negb (length (slots st) =? 0)%nat then st
  else initSlots_loop (Z.to_nat (Config.totalSlots (config st))) 1 st.

(** ** Allocation policy *)

(** [Array.prototype.sort] with a comparator: a stable sort, here by
    insertion.  [cmp a b <= 0] keeps [a] in front of [b]. *)
Fixpoint sort_insert {A} (cmp : A → A → Z) (x : A) (l : list A) : list A :=
  match l with
  | [] => [x]
  | y :: l' => if cmp x y <=? 0 then x :: y :: l' else y :: sort_insert cmp x l'
  end.

Definition array_sort {A} (cmp : A → A → Z) (l : list A) : list A :=
  foldr (sort_insert cmp) [] l.

(** The slot objects of [STATE.slots] with their positions: a position
    stands for the identity of the object, so that a later assignment to a
    field of the chosen object is an update of [STATE.slots] in place. *)
Definition slot_objects (st : State) : list (nat * Slot.t) := imap pair (slots st).

Definition nearestEmptySlot (type : string) (st : State) : option (nat * Slot.t) :=
  let sameType :=
    filter (λ s, Slot.occupied s.2 = false ∧ Slot.type s.2 = Some type) (slot_objects st) in
  let anyType := filter (λ s, Slot.occupied s.2 = false) (slot_objects st) in
  let pool := if negb (length sameType =? 0)%nat then sameType else anyType in
  if (length pool =? 0)%nat then None
  else array_sort (λ a b, Slot.id a.2 - Slot.id b.2) pool !! 0%nat.

(** ** JSON values and the stored snapshot *)

#[warnings="-register-all"]
Inductive json :=
  | JNull
  | JBool (b : bool)
  | JNum (n : Z)
  | JStr (s : string)
  | JArr (items : list json)
  | JObj (props : list (string * json)).

(** Own property [k] of a parsed object (its properties in insertion order). *)
Fixpoint get_prop (k : string) (props : list (string * json)) : option json :=
  match props with
  | [] => None
  | (k', v) :: rest => if decide (k' = k) then Some v else get_prop k rest
  end.

(** [v.k] for a non-null JSON value [v]; [None] is [undefined]. *)
Definition member (v : json) (k : string) : option json :=
  match v with JObj props => get_prop k props | _ => None end.

(** JavaScript truthiness of a property value. *)
Definition truthy (v : option json) : bool :=
  match v with
  | None | Some JNull | Some (JBool false) | Some (JNum 0) | Some (JStr "") => false
  | Some _ => true
  end.

(** What [JSON.stringify] makes of the objects of [STATE]; a property whose
    value is [undefined] is left out. *)
Definition json_of_nullable (n : option Z) : json :=
  match n with Some t => JNum t | None => JNull end.

Definition json_of_vehicle (v : Vehicle.t) : json :=
  JObj [("number", JStr (Vehicle.number v)); ("owner", JStr (Vehicle.owner v));
        ("type", JStr (Vehicle.type v))]%string.

Definition json_of_slot (s : Slot.t) : json :=
  JObj ([("id", JNum (Slot.id s))]%string
        ++ match Slot.type s with Some t => [("type", JStr t)]%string | None => [] end
        ++ [("occupied", JBool (Slot.occupied s));
            ("vehicle", match Slot.vehicle s with Some v => json_of_vehicle v | None => JNull end);
            ("entryTime", json_of_nullable (Slot.entryTime s))]%string).

Definition json_of_record (h : HistoryRecord.t) : json :=
  JObj [("vehicleNumber", JStr (HistoryRecord.vehicleNumber h));
        ("owner", JStr (HistoryRecord.owner h));
        ("type", JStr (HistoryRecord.type h));
        ("slotId", JNum (HistoryRecord.slotId h));
        ("entryTime", json_of_nullable (HistoryRecord.entryTime h));
        ("exitTime", JNum (HistoryRecord.exitTime h));
        ("durationMs", JNum (HistoryRecord.durationMs h));
        ("fee", JNum (HistoryRecord.fee h))]%string.

Definition json_of_config (c : Config.t) : json :=
  JObj [("totalSlots", JNum (Config.totalSlots c));
        ("typesByRow", JArr (JStr <$> Config.typesByRow c));
        ("fee", JObj [("baseMinutes", JNum (Fee.baseMinutes (Config.fee c)));
                      ("basePrice", JNum (Fee.basePrice (Config.fee c)));
                      ("hourlyAfter", JNum (Fee.hourlyAfter (Config.fee c)))])]%string.

(** [const { timers, ...persist } = STATE; JSON.stringify(persist)] *)
Definition stringify_persist (st : State) : json :=
  JObj [("slots", JArr (json_of_slot <$> slots st));
        ("history", JArr (json_of_record <$> history st));
        ("config", json_of_config (config st));
        ("theme", JStr (theme st))]%string.

(** Reading a parsed value back at the types of the model.  The script
    assigns whatever it parsed; a value that does not fit the records above
    has no counterpart here and is reported as [None]. *)
Definition as_num (v : json) : option Z := match v with JNum n => Some n | _ => None end.
Definition as_str (v : json) : option string := match v with JStr s => Some s | _ => None end.
Definition as_bool (v : json) : option bool := match v with JBool b => Some b | _ => None end.
Definition as_arr (v : json) : option (list json) :=
  match v with JArr l => Some l | _ => None end.
Definition as_nullable {A} (f : json → option A) (v : json) : option (option A) :=
  match v with JNull => Some None | _ => Some <$> f v end.

Definition vehicle_of_json (v : json) : option Vehicle.t :=
  n ← member v "number" ≫= as_str;
  o ← member v "owner" ≫= as_str;
  t ← member v "type" ≫= as_str;
  Some (Vehicle.mk n o t).

Definition slot_of_json (v : json) : option Slot.t :=
  i ← member v "id" ≫= as_num;
  t ← match member v "type" with None => Some None | Some x => Some <$> as_str x end;
  o ← member v "occupied" ≫= as_bool;
  veh ← member v "vehicle" ≫= as_nullable vehicle_of_json;
  e ← member v "entryTime" ≫= as_nullable as_num;
  Some (Slot.mk i t o veh e).

Definition record_of_json (v : json) : option HistoryRecord.t :=
  n ← member v "vehicleNumber" ≫= as_str;
  o ← member v "owner" ≫= as_str;
  t ← member v "type" ≫= as_str;
  s ← member v "slotId" ≫= as_num;
  e ← member v "entryTime" ≫= as_nullable as_num;
  x ← member v "exitTime" ≫= as_num;
  d ← member v "durationMs" ≫= as_num;
  f ← member v "fee" ≫= as_num;
  Some (HistoryRecord.mk n o t s e x d f).

Definition fee_of_json (v : json) : option Fee.t :=
  m ← member v "baseMinutes" ≫= as_num;
  p ← member v "basePrice" ≫= as_num;
  h ← member v "hourlyAfter" ≫= as_num;
  Some (Fee.mk m p h).

Definition config_of_json (v : json) : option Config.t :=
  n ← member v "totalSlots" ≫= as_num;
  l ← member v "typesByRow" ≫= as_arr;
  ts ← mapM (M:=option) as_str l;
  f ← member v "fee" ≫= fee_of_json;
  Some (Config.mk n ts f).

Definition slots_of_json (v : json) : option (list Slot.t) :=
  l ← as_arr v; mapM (M:=option) slot_of_json l.
Definition history_of_json (v : json) : option (list HistoryRecord.t) :=
  l ← as_arr v; mapM (M:=option) record_of_json l.

(** ** The page: [STATE], [localStorage] and what the user is shown *)

(** The string held under the key ['parkingData'], told apart by what
    [JSON.parse] does with it. *)
Inductive stored_text :=
  | Text_empty
  | Text_invalid
  | Text_json (v : json).

Inductive message :=
  | NoEmptySlot
  | AssignedSlot (slotId : Z) (number : string)
  | RemovedFee (slotId fee : Z)
  | DataReset.

Inductive ui :=
  | Toast (m : message) (kind : string)
  | Modal (title : string)
  | Invoice (slotId : Z) (h : HistoryRecord.t).

Record World := mkWorld {
  STATE : State;
  localStorage : option stored_text;
  shown : list ui
}.

Inductive js_error := SyntaxError | TypeError.

(** How a piece of script ends: normally, by an exception (with the world
    as the script left it), or with a value in [STATE] that the records of
    this model cannot hold ([Untyped]), where the model stops. *)
Inductive result (A : Type) :=
  | Ret (a : A) (w : World)
  | Raise (e : js_error) (w : World)
  | Untyped.
Arguments Ret {A} a w.
Arguments Raise {A} e w.
Arguments Untyped {A}.

Definition M (A : Type) : Type := World → result A.

Global Instance M_ret : MRet M := λ A a w, Ret a w.
Global Instance M_bind : MBind M := λ A B f m w,
  match m w with
  | Ret a w' => f a w'
  | Raise e w' => Raise e w'
  | Untyped => Untyped
  end.

Definition getState : M State := λ w, Ret (STATE w) w.
Definition modifyState (f : State → State) : M unit :=
  λ w, Ret () (mkWorld (f (STATE w)) (localStorage w) (shown w)).
Definition getItem : M (option stored_text) := λ w, Ret (localStorage w) w.
Definition setItem (t : stored_text) : M unit :=
  λ w, Ret () (mkWorld (STATE w) (Some t) (shown w)).
Definition removeItem : M unit := λ w, Ret () (mkWorld (STATE w) None (shown w)).
Definition show (u : ui) : M unit :=
  λ w, Ret () (mkWorld (STATE w) (localStorage w) (shown w ++ [u])).
Definition raise {A} (e : js_error) : M A := λ w, Raise e w.
Definition untyped {A} : M A := λ _, Untyped.

(** [try { m } catch {}] *)
Definition try_catch (m : M unit) : M unit := λ w,
  match m w with
  | Raise _ w' => Ret () w'
  | r => r
  end.

(** [l.forEach(f)] *)
Fixpoint forEach {A} (f : A → M unit) (l : list A) : M unit :=
  match l with
  | [] => mret ()
  | x :: l' => f x;; forEach f l'
  end.

(** ** Persistence *)

Definition JSON_parse (t : stored_text) : M json :=
  match t with
  | Text_json v => mret v
  | _ => raise SyntaxError
  end.

(** [data.k]: a [TypeError] on [null]. *)
Definition property (data : json) (k : string) : M (option json) :=
  match data with
  | JNull => raise TypeError
  | _ => mret (member data k)
  end.

(** The value a property of [data] gives to a field of [STATE]. *)
Definition assigned {A} (v : option json) (read : json → option A) (old : A) : M A :=
  match v with
  | None => mret old
  | Some x => match read x with Some y => mret y | None => untyped end
  end.

(** [Object.assign(STATE, data, { timers: {} })].  Properties of [data]
    other than these four become properties of [STATE] that the script
    never reads; a [timers] property of [data] is overwritten at once. *)
Definition Object_assign_STATE (data : json) : M unit :=
  st ← getState;
  ss ← assigned (member data "slots") slots_of_json (slots st);
  hs ← assigned (member data "history") history_of_json (history st);
  cf ← assigned (member data "config") config_of_json (config st);
  th ← assigned (member data "theme") as_str (theme st);
  modifyState (λ _, mkState ss hs cf th ∅).

Definition load : M unit :=
  try_catch (
    item ← getItem;
    data ← JSON_parse (match item with
                       | None | Some Text_empty => Text_json (JObj [])
                       | Some t => t
                       end);
    s ← property data "slots";
    if truthy s then
      h ← property data "history";
      if truthy h then Object_assign_STATE data else mret ()
    else mret ()).

Definition save : M unit :=
  st ← getState;
  setItem (Text_json (stringify_persist st)).

(** ** Rendering, as far as it touches [STATE] *)

Definition renderDashboard : M unit :=
  st ← getState;
  forEach (λ slot : Slot.t,
    if Slot.occupied slot then
      match Slot.vehicle slot with
      | None => raise TypeError
      | Some _ => modifyState (λ st, set_timers ({[Slot.id slot]} ∪ timers st) st)
      end
    else mret ()) (slots st).

(** [renderAnalytics] only reads; [typeCounts] fails on [s.vehicle.type]
    for an occupied slot without a vehicle. *)
Definition renderAnalytics : M unit :=
  st ← getState;
  forEach (λ s : Slot.t,
    match Slot.vehicle s with None => raise TypeError | Some _ => mret () end)
    (filter (λ s, Slot.occupied s = true) (slots st)).

Definition navigate (path : string) : M unit :=
  if decide (path = "/dashboard"%string) then renderDashboard
  else if decide (path = "/analytics"%string) then renderAnalytics
  else mret ().

(** ** Vehicle entry *)

(** The submit handler of the entry form from [nearestEmptySlot(type)] on,
    for field values that passed the validation; [now] is [Date.now()]. *)
Definition entry_submit (number owner type : string) (now : Z) : M unit :=
  st ← getState;
  match nearestEmptySlot type st with
  | None => show (Toast NoEmptySlot "error")
  | Some (i, slot) =>
      let slot' := Slot.mk (Slot.id slot) (Slot.type slot) true
                           (Some (Vehicle.mk number owner type)) (Some now) in
      modifyState (λ st, set_slots (<[i := slot']> (slots st)) st);;
      save;;
      show (Modal "Vehicle parked");;
      show (Toast (AssignedSlot (Slot.id slot) number) "success")
  end.

(** ** Vehicle removal *)

(** What the confirm callback of [removeVehicleFlow] closes over: the slot
    object [s] (by position), [now], [duration] and [fee]. *)
Record removal := mkRemoval { r_slot : nat; r_now : Z; r_duration : Z; r_fee : Z }.

Definition removeVehicleFlow (slotId now : Z) : M (option removal) :=
  st ← getState;
  match list_find (λ x, Slot.id x = slotId) (slots st) with
  | None => mret None
  | Some (i, s) =>
      if negb (Slot.occupied s) then mret None
      else
        let duration := now - default 0 (Slot.entryTime s) in
        let fee := computeFee st duration in
        match Slot.vehicle s with
        | None => raise TypeError
        | Some _ => show (Modal "Remove vehicle?");; mret (Some (mkRemoval i now duration fee))
        end
  end.

(** The confirm callback.  It works on the slot object [s] it closed over;
    a position that is no longer in [STATE.slots] (the array was replaced
    in between) has no counterpart here. *)
Definition removeVehicle_confirm (slotId : Z) (c : removal) : M unit :=
  st ← getState;
  match slots st !! r_slot c with
  | None => untyped
  | Some s =>
      match Slot.vehicle s with
      | None => raise TypeError
      | Some v =>
          let exitTime := r_now c in
          let record :=
            HistoryRecord.mk (Vehicle.number v) (Vehicle.owner v) (Vehicle.type v)
                             (Slot.id s) (Slot.entryTime s) exitTime
                             (r_duration c) (r_fee c) in
          modifyState (λ st, set_history (record :: history st) st);;
          modifyState (λ st,
            set_slots (<[r_slot c := Slot.mk (Slot.id s) (Slot.type s) false None None]>
                         (slots st)) st);;
          modifyState (λ st, set_timers (timers st ∖ {[slotId]}) st);;
          save;;
          navigate "/dashboard";;
          show (Toast (RemovedFee (Slot.id s) (r_fee c)) "success");;
          show (Invoice slotId record)
      end
  end.

(** The flow followed at once by the user's answer to the dialog. *)
Definition removeVehicle (slotId now : Z) (confirmed : bool) : M unit :=
  c ← removeVehicleFlow slotId now;
  match c with
  | Some c => if confirmed then removeVehicle_confirm slotId c else mret ()
  | None => mret ()
  end.

(** ** Reset, theme and start-up *)

(** The confirm callback of the reset button; [path] is [currentPath()]. *)
Definition resetData (path : string) : M unit :=
  removeItem;;
  modifyState (set_slots []);;
  modifyState (set_history []);;
  modifyState initSlots;;
  navigate path;;
  show (Toast DataReset "success").

Definition boot (path : string) : M unit :=
  load;;
  modifyState initSlots;;
  navigate path.

(** Evaluating the script on a fresh page: [STATE] is the literal again,
    [localStorage] is what the browser kept. *)
Definition page_load (cfg : Config.t) (path : string) : M unit :=
  λ w, boot path (mkWorld (STATE0 cfg) (localStorage w) []).

Definition themeToggle (cfg : Config.t) (path : string) : M unit :=
  st ← getState;
  if decide (theme st = "dark"%string) then modifyState (set_theme "light")
  else page_load cfg path.

(** ** Runs of the page *)

Inductive event :=
  | PageLoad (path : string)
  | HashChange (path : string)
  | EntrySubmit (number owner type : string) (now : Z)
  | RemoveClick (slotId now : Z) (confirmed : bool)
  | ResetConfirm (path : string)
  | ThemeClick (path : string).

Definition handle (cfg : Config.t) (e : event) : M unit :=
  match e with
  | PageLoad path => page_load cfg path
  | HashChange path => navigate path
  | EntrySubmit number owner type now => entry_submit number owner type now
  | RemoveClick slotId now confirmed => removeVehicle slotId now confirmed
  | ResetConfirm path => resetData path
  | ThemeClick path => themeToggle cfg path
  end.

(** The world a handler leaves behind; an uncaught exception ends the
    handler and leaves the world as it was at that point. *)
Definition outcome (m : M unit) (w : World) : option World :=
  match m w with
  | Ret _ w' | Raise _ w' => Some w'
  | Untyped => None
  end.

Definition after (cfg : Config.t) (e : event) (w : World) : option World :=
  outcome (handle cfg e) w.

(** A browser that never ran the page. *)
Definition fresh_browser (cfg : Config.t) : World := mkWorld (STATE0 cfg) None [].

Inductive reachable (cfg : Config.t) : World → Prop :=
  | reach_open path w :
      after cfg (PageLoad path) (fresh_browser cfg) = Some w → reachable cfg w
  | reach_next w e w' :
      reachable cfg w → after cfg e w = Some w' → reachable cfg w'.

(** ** Revenue series *)

(** [d = new Date(); d.setDate(d.getDate() - i); d.setHours(0,0,0,0);
    d.getTime()] at instant [now], in a zone whose local time is UTC plus
    [tz] milliseconds.  Zones that change their offset (daylight saving)
    are outside this model, and [new Date()] is taken to read the same
    instant in every turn of the loop. *)
Definition local_midnight (tz now i : Z) : Z :=
  let t := now - i * 86400000 in
  t - (t + tz) `mod` 86400000.





(** ** Vocabulary of the properties *)

Definition non_null {A} (o : option A) : bool :=
  match o with Some _ => true | None => false end.

(** [occupied] says whether the session fields are set. *)
Definition slot_ok (s : Slot.t) : Prop :=
  Slot.occupied s = non_null (Slot.vehicle s) ∧
  Slot.occupied s = non_null (Slot.entryTime s).

(** Identity and category of a slot. *)
Definition slot_key (s : Slot.t) : Z * option string := (Slot.id s, Slot.type s).

(** The registry [initSlots] builds for a configuration. *)
Definition registry (cfg : Config.t) : list Slot.t := slots (initSlots (STATE0 cfg)).

(** A free slot, and a free slot of a category. *)
Definition free (s : Slot.t) : Prop := Slot.occupied s = false.
Definition free_of (type : string) (s : Slot.t) : Prop :=
  Slot.occupied s = false ∧ Slot.type s = Some type.




(** A handler reports a failure to its caller or to the user: it ends by
    an exception, or it shows something that was not shown before. *)
Definition reports_failure (m : M unit) (w : World) : Prop :=
  match m w with
  | Raise _ _ => True
  | Ret _ w' => shown w' ≠ shown w
  | Untyped => False
  end.


(** The comparator [(a, b) => key(a) - key(b)]. *)
Definition by_key {A} (key : A → Z) (a b : A) : Z := key a - key b.

(** What holds of [STATE] between events, for the configuration [cfg] of
    the script: sessions agree with [occupied], identities and categories
    are those of the registry, the configuration is [cfg], and no fee in
    the history is below the base price (for an hourly rate that is not
    negative). *)
Definition fees_ok (cfg : Config.t) (st : State) : Prop :=
  0 ≤ Fee.hourlyAfter (Config.fee cfg) →
  Forall (λ h, Fee.basePrice (Config.fee cfg) ≤ HistoryRecord.fee h) (history st).

Definition state_ok (cfg : Config.t) (st : State) : Prop :=
  Forall slot_ok (slots st) ∧
  slot_key <$> slots st = slot_key <$> registry cfg ∧
  config st = cfg ∧
  fees_ok cfg st.

(** The stored text is absent or a snapshot of such a state. *)
Definition storage_ok (cfg : Config.t) (ls : option stored_text) : Prop :=
  match ls with
  | None => True
  | Some t => ∃ st, t = Text_json (stringify_persist st) ∧ state_ok cfg st
  end.

Definition world_ok (cfg : Config.t) (w : World) : Prop :=
  state_ok cfg (STATE w) ∧ storage_ok cfg (localStorage w).

(** Two worlds that differ in [STATE.timers] at most. *)
Definition upto_timers (w w' : World) : Prop :=
  ∃ ts, w' = mkWorld (set_timers ts (STATE w)) (localStorage w) (shown w).

(** The end of a run of [m] from [w]: [Q] after a normal end, [E] after an
    exception; the run stays within the model. *)
Definition ends {A} (m : M A) (w : World)
    (Q : A → World → Prop) (E : World → Prop) : Prop :=
  match m w with
  | Ret a w' => Q a w'
  | Raise _ w' => E w'
  | Untyped => False
  end.

(** A slot after [occupied = true; vehicle = {...}; entryTime = now], and
    after [occupied = false; vehicle = null; entryTime = null]. *)
Definition parked (s : Slot.t) (number owner type : string) (now : Z) : Slot.t :=
  Slot.mk (Slot.id s) (Slot.type s) true (Some (Vehicle.mk number owner type)) (Some now).
Definition vacated (s : Slot.t) : Slot.t :=
  Slot.mk (Slot.id s) (Slot.type s) false None None.

(** The record a removal at [now] writes for slot [s] holding vehicle [v]. *)
Definition record_of (st : State) (s : Slot.t) (v : Vehicle.t) (now : Z) : HistoryRecord.t :=
  let duration := now - default 0 (Slot.entryTime s) in
  HistoryRecord.mk (Vehicle.number v) (Vehicle.owner v) (Vehicle.type v) (Slot.id s)
                   (Slot.entryTime s) now duration (computeFee st duration).

(** [w'] is [w] after the removal of the vehicle in the slot object at
    position [i]: that slot is vacated, one record is put in front of the
    history, and the snapshot is rewritten. *)
Definition removed (w : World) (i : nat) (s : Slot.t) (v : Vehicle.t) (now : Z)
    (w' : World) : Prop :=
  slots (STATE w') = <[i := vacated s]> (slots (STATE w)) ∧
  history (STATE w') = record_of (STATE w) s v now :: history (STATE w) ∧
  config (STATE w') = config (STATE w) ∧
  theme (STATE w') = theme (STATE w) ∧
  localStorage w' = Some (Text_json (stringify_persist (STATE w'))).

(** [w'] is [w] with nothing changed in [STATE] or in the store. *)
Definition untouched (w w' : World) : Prop :=
  STATE w' = STATE w ∧ localStorage w' = localStorage w.

(** [w'] is [w] after the slot object at position [i] was given to a
    vehicle: that slot is occupied, and the snapshot is rewritten. *)
Definition occupied_at (w : World) (i : nat) (s' : Slot.t) (w' : World) : Prop :=
  slots (STATE w') = <[i := s']> (slots (STATE w)) ∧
  history (STATE w') = history (STATE w) ∧
  config (STATE w') = config (STATE w) ∧
  localStorage w' = Some (Text_json (stringify_persist (STATE w'))).

(** The claim that a removal which cannot take place is reported: for an
    unknown id, and for a known slot that is not occupied. *)
Definition release_failure_reported (w : World) (slotId now : Z) : Prop :=
  match list_find (λ x, Slot.id x = slotId) (slots (STATE w)) with
  | None => reports_failure (removeVehicle slotId now true) w
  | Some (_, s) => Slot.occupied s = false → reports_failure (removeVehicle slotId now true) w
  end.

(** A facility of three car slots, as the page shows it on its first load,
    and the same after one vehicle was parked at instant 1000. *)
Definition small_config : Config.t := Config.mk 3 ["car"%string] (Fee.mk 30 20 50).

Definition demo_world : World := mkWorld (initSlots (STATE0 small_config)) None [].

Definition demo_parked : World :=
  default demo_world
    (after small_config (EntrySubmit "TN38AB1234" "Priya" "car" 1000) demo_world).


(** The worlds a list of events leads through. *)
Fixpoint run_events (cfg : Config.t) (es : list event) (w : World) : option World :=
  match es with
  | [] => Some w
  | e :: es' => after cfg e w ≫= run_events cfg es'
  end.

(** ** Duration text *)

(** [s.padStart(n, c)] for a one-character [c]. *)
Definition padStart (n : nat) (c : ascii) (s : string) : string :=
  string_of_list_ascii (replicate (n - String.length s) c) +:+ s.

(** [n.toString().padStart(2,'0')] for an integer [n]. *)
Definition pad2 (n : Z) : string := padStart 2 "0" (pretty n).

(** The constants [h], [m] and [s] of [fmtDuration].  [Math.floor] of a
    quotient of non-negative integers is the integer quotient (exact in
    double precision for the millisecond counts at hand), and [%] on them
    is the remainder. *)
Definition duration_parts (ms : Z) : Z * Z * Z :=
  let t := Z.max 0 ms in
  let h := t `div` 3600000 in
  let m := (Z.rem t 3600000) `div` 60000 in
  let s := (Z.rem t 60000) `div` 1000 in
  (h, m, s).

Definition fmtDuration (ms : Z) : string :=
  let '(h, m, s) := duration_parts ms in
  pad2 h +:+ "h " +:+ pad2 m +:+ "m " +:+ pad2 s +:+ "s".

(** [fmtParked(entry)], with [now] for [Date.now()]; [null] counts as 0. *)
Definition fmtParked (now : Z) (entry : option Z) : string :=
  fmtDuration (now - default 0 entry).

(** ** Figures of the analytics page *)

(** The four figures [renderAnalytics] computes before it draws: the exits
    of today, the revenue, the mean duration and the number of vehicles
    parked.  Times are local times of a zone at UTC plus [tz] milliseconds,
    as for [revenueByDay]; [setHours(23,59,59,999)] is the last millisecond
    of the day. *)
Record kpis := mkKpis {
  vehiclesToday : nat;
  totalRevenue : Z;
  avgDuration : Z;
  currentlyParked : nat
}.

Definition analytics_kpis (tz now : Z) (st : State) : kpis :=
  let todayStart := local_midnight tz now 0 in
  let todayEnd := todayStart + (23 * 3600000 + 59 * 60000 + 59 * 1000 + 999) in
  mkKpis
    (length (filter (λ h, todayStart ≤ HistoryRecord.exitTime h
                          ∧ HistoryRecord.exitTime h ≤ todayEnd) (history st)))
    (foldl (λ sum h, sum + HistoryRecord.fee h) 0 (history st))
    (if negb (length (history st) =? 0)%nat
     then foldl (λ sum h, sum + HistoryRecord.durationMs h) 0 (history st)
          `div` Z.of_nat (length (history st))
     else 0)
    (length (filter (λ s, Slot.occupied s = true) (slots st))).

(** The object [typeCounts] returns, as its callers read it: the three
    counters.  [counts[k]++] for another key [k] gives the object a
    property of that name, which nobody reads. *)
Record counts := mkCounts { car : Z; bike : Z; truck : Z }.

Definition bump (c : counts) (k : string) : counts :=
  if decide (k = "car"%string) then mkCounts (car c + 1) (bike c) (truck c)
  else if decide (k = "bike"%string) then mkCounts (car c) (bike c + 1) (truck c)
  else if decide (k = "truck"%string) then mkCounts (car c) (bike c) (truck c + 1)
  else c.

(** [l.forEach(s => counts[s.vehicle.type]++)]; [None] is the [TypeError]
    of reading [type] of [null]. *)
Fixpoint count_vehicles (c : counts) (l : list Slot.t) : option counts :=
  match l with
  | [] => Some c
  | s :: l' =>
      match Slot.vehicle s with
      | None => None
      | Some v => count_vehicles (bump c (Vehicle.type v)) l'
      end
  end.

Definition typeCounts (st : State) : option counts :=
  let counts := foldl (λ c h, bump c (HistoryRecord.type h)) (mkCounts 0 0 0) (history st) in
  count_vehicles counts (filter (λ s, Slot.occupied s = true) (slots st)).

(** ** Validation of the entry form *)

(** Regular expressions as far as the form needs them, and the ways a
    prefix of a text can match one: [rests r s] lists what is left of [s]
    after each.  A character of a text stands for a UTF-16 code unit below
    256; texts with other code units are not covered. *)
Inductive regex :=
  | Eps
  | Class (p : ascii → bool)
  | Seq (r1 r2 : regex)
  | Opt (r : regex).

Fixpoint rests (r : regex) (s : list ascii) : list (list ascii) :=
  match r with
  | Eps => [s]
  | Class p => match s with c :: s' => if p c then [s'] else [] | [] => [] end
  | Seq r1 r2 => rests r1 s ≫= rests r2
  | Opt r => rests r s ++ [s]
  end.

(** [/^r$/.test(s)] *)
Definition regex_test (r : regex) (s : string) : bool :=
  bool_decide ([] ∈ rests r (list_ascii_of_string s)).

(** [r{n}] and [r{lo,hi}] *)
Fixpoint times (n : nat) (r : regex) : regex :=
  match n with O => Eps | S n' => Seq r (times n' r) end.
Fixpoint upto (n : nat) (r : regex) : regex :=
  match n with O => Eps | S n' => Opt (Seq r (upto n' r)) end.
Definition between (lo hi : nat) (r : regex) : regex := Seq (times lo r) (upto (hi - lo) r).

(** [[A-Z]], [\d] and [\s] (below 256: tab, line feed, vertical tab, form
    feed, carriage return, space and no-break space). *)
Definition upper (c : ascii) : bool :=
  (65 <=? nat_of_ascii c)%nat && (nat_of_ascii c <=? 90)%nat.
Definition digit (c : ascii) : bool :=
  (48 <=? nat_of_ascii c)%nat && (nat_of_ascii c <=? 57)%nat.
Definition space (c : ascii) : bool :=
  bool_decide (nat_of_ascii c ∈ [9; 10; 11; 12; 13; 32; 160]%nat).

(** [/^[A-Z]{2}\s?\d{2}\s?[A-Z]{1,2}\s?\d{3,4}$/] *)
Definition plate_regex : regex :=
  Seq (times 2 (Class upper))
  (Seq (Opt (Class space))
  (Seq (times 2 (Class digit))
  (Seq (Opt (Class space))
  (Seq (between 1 2 (Class upper))
  (Seq (Opt (Class space))
       (between 3 4 (Class digit))))))).

Inductive field := VehNumber | OwnerName | VehType.

(** The fields the submit handler marks invalid, for the field values as
    the handler has normalised them ([trim], [toUpperCase], [capWords]). *)
Definition entryForm_errors (number owner type : string) : list field :=
  (if regex_test plate_regex number then [] else [VehNumber])
  ++ (if (String.length owner <? 2)%nat then [OwnerName] else [])
  ++ (if bool_decide (type ∈ ["car"; "bike"; "truck"]%string) then [] else [VehType]).

(** The submit handler of the entry form; it yields the fields it marked. *)
Definition entryForm_submit (number owner type : string) (now : Z) : M (list field) :=
  let errors := entryForm_errors number owner type in
  if bool_decide (errors = []) then entry_submit number owner type now;; mret []
  else mret errors.

(** ** Runs under a condition on the events *)

(** The worlds the page reaches when every event [e] that arrives in a
    world [w] satisfies [allowed w e]. *)
Inductive reachable_when (allowed : World → event → Prop) (cfg : Config.t) : World → Prop :=
  | when_open path w :
      after cfg (PageLoad path) (fresh_browser cfg) = Some w →
      reachable_when allowed cfg w
  | when_next w e w' :
      reachable_when allowed cfg w → allowed w e → after cfg e w = Some w' →
      reachable_when allowed cfg w'.

(** Entries come through the validation of the form. *)
Definition validated (w : World) (e : event) : Prop :=
  match e with
  | EntrySubmit number owner type _ => entryForm_errors number owner type = []
  | _ => True
  end.

(** The clock does not run backwards: the instant of an event is not
    before any instant written down so far. *)
Definition clock_ahead (w : World) (e : event) : Prop :=
  match e with
  | EntrySubmit _ _ _ now | RemoveClick _ now _ =>
      (∀ s t, s ∈ slots (STATE w) → Slot.entryTime s = Some t → t ≤ now) ∧
      (∀ h, h ∈ history (STATE w) → HistoryRecord.exitTime h ≤ now)
  | _ => True
  end.

(** The stored snapshot agrees with [STATE] on slots and history; with
    nothing stored, [STATE] is as on the first run. *)
Definition synced (cfg : Config.t) (w : World) : Prop :=
  match localStorage w with
  | None => slots (STATE w) = registry cfg ∧ history (STATE w) = []
  | Some t =>
      ∃ st, t = Text_json (stringify_persist st) ∧
            slots st = slots (STATE w) ∧ history st = history (STATE w) ∧ config st = cfg
  end.

(** A record whose figures fit together. *)
Definition record_sound (cfg : Config.t) (h : HistoryRecord.t) : Prop :=
  ∃ e, HistoryRecord.entryTime h = Some e ∧
       HistoryRecord.durationMs h = HistoryRecord.exitTime h - e ∧
       HistoryRecord.fee h = computeFee (STATE0 cfg) (HistoryRecord.durationMs h) ∧
       1 ≤ HistoryRecord.slotId h ≤ Config.totalSlots cfg.

(** What the validation lets through. *)
Definition entered (number owner type : string) : Prop :=
  regex_test plate_regex number = true ∧
  (2 ≤ String.length owner)%nat ∧
  type ∈ ["car"; "bike"; "truck"]%string.

(** The number of occupied slots. *)
Definition parked_count (st : State) : nat :=
  length (filter (λ s, Slot.occupied s = true) (slots st)).

(** The sum of the durations of a history. *)
Definition durations (hs : list HistoryRecord.t) : Z :=
  foldr (λ h acc, HistoryRecord.durationMs h + acc) 0 hs.


(** The number of records and of parked vehicles of a category. *)
Definition tally (k : string) (st : State) : Z :=
  Z.of_nat (length (filter (λ h, HistoryRecord.type h = k) (history st)))
  + Z.of_nat (length (filter (λ s, Slot.occupied s = true ∧
                                   Vehicle.type <$> Slot.vehicle s = Some k) (slots st))).

(** The texts a regular expression matches. *)
Inductive matches : regex → list ascii → Prop :=
  | matches_eps : matches Eps []
  | matches_class p c : p c = true → matches (Class p) [c]
  | matches_seq r1 r2 l1 l2 : matches r1 l1 → matches r2 l2 → matches (Seq r1 r2) (l1 ++ l2)
  | matches_opt_none r : matches (Opt r) []
  | matches_opt_some r l : matches r l → matches (Opt r) l.

(** The least and the greatest length of a match, and the characters that
    can occur in one. *)
Fixpoint min_len (r : regex) : nat :=
  match r with
  | Eps => 0
  | Class _ => 1
  | Seq r1 r2 => min_len r1 + min_len r2
  | Opt _ => 0
  end.

Fixpoint max_len (r : regex) : nat :=
  match r with
  | Eps => 0
  | Class _ => 1
  | Seq r1 r2 => max_len r1 + max_len r2
  | Opt r => max_len r
  end.

Fixpoint alphabet (r : regex) (c : ascii) : bool :=
  match r with
  | Eps => false
  | Class p => p c
  | Seq r1 r2 => alphabet r1 c || alphabet r2 c
  | Opt r => alphabet r c
  end.

(** The ids of the occupied slots. *)
Definition occupied_ids (st : State) : gset Z :=
  list_to_set (Slot.id <$> filter (λ s, Slot.occupied s = true) (slots st)).

(** The small facility after the parked vehicle has left at instant
    1861000. *)
Definition demo_removed : World :=
  default demo_parked (after small_config (RemoveClick 1 1861000 true) demo_parked).

(** The small facility after the theme button was pressed and a vehicle
    was parked. *)
Definition demo_light : World :=
  default demo_world
    (run_events small_config
       [ThemeClick "/"; EntrySubmit "TN38AB1234" "Priya" "car" 1000] demo_world).
(** ** Fee policy: properties *)

Lemma ceil_div_bounds (a b : Z) :
  0 < b → b * (ceil_div a b - 1) < a ∧ a ≤ b * ceil_div a b.
Proof.
  intros Hb. unfold ceil_div.
  pose proof (Z.div_mod (- a) b ltac:(lia)) as Hdm.
  pose proof (Z.mod_pos_bound (- a) b Hb) as Hm.
  split; nia.
Qed.

Lemma computeFee_ge_base st ms :
  0 ≤ Fee.hourlyAfter (Config.fee (config st)) →
  Fee.basePrice (Config.fee (config st)) ≤ computeFee st ms.
Proof.
  intros Hrate. unfold computeFee.
  destruct (Config.fee (config st)) as [bm bp ha]; cbn [Fee.hourlyAfter Fee.basePrice] in *.
  destruct (Z.leb_spec (ceil_div ms 60000) bm) as [Hle|Hgt]; [lia |].
  destruct (ceil_div_bounds (ceil_div ms 60000 - bm) 60 ltac:(lia)) as [_ Hhi].
  nia.
Qed.

(** C2. [computeFee] rounds the duration up to whole minutes; up to
    [baseMinutes] the fee is [basePrice], beyond it the fee is [basePrice]
    plus [hourlyAfter] for every started hour of the extra minutes.  With
    the default configuration the fees of 0, 30, 31, 90 and 91 minutes are
    20, 20, 70, 70 and 120. *)
Theorem computeFee_rule :
  (∀ (st : State) (ms : Z),
     let f := Config.fee (config st) in
     ∃ minutes : Z,
       60000 * (minutes - 1) < ms ∧ ms ≤ 60000 * minutes ∧
       (minutes ≤ Fee.baseMinutes f → computeFee st ms = Fee.basePrice f) ∧
       (Fee.baseMinutes f < minutes →
        ∃ hours : Z,
          60 * (hours - 1) < minutes - Fee.baseMinutes f ∧
          minutes - Fee.baseMinutes f ≤ 60 * hours ∧
          computeFee st ms = Fee.basePrice f + hours * Fee.hourlyAfter f)) ∧
  (∀ ss hs th ts,
     let st := mkState ss hs default_config th ts in
     computeFee st 0 = 20 ∧
     computeFee st (30 * 60000) = 20 ∧
     computeFee st (31 * 60000) = 70 ∧
     computeFee st (90 * 60000) = 70 ∧
     computeFee st (91 * 60000) = 120).
Proof.
  split.
  - intros st ms f. exists (ceil_div ms 60000).
    destruct (ceil_div_bounds ms 60000 ltac:(lia)) as [Hlo Hhi].
    unfold computeFee. fold f. destruct f as [bm bp ha]; simpl.
    repeat split; try lia.
    + intros Hle. apply Z.leb_le in Hle. by rewrite Hle.
    + intros Hlt. exists (ceil_div (ceil_div ms 60000 - bm) 60).
      destruct (ceil_div_bounds (ceil_div ms 60000 - bm) 60 ltac:(lia)) as [Hl Hh].
      repeat split; try lia.
      apply Z.leb_gt in Hlt. by rewrite Hlt.
  - intros. by vm_compute.
Qed.

(** ** Registry initialisation: properties *)

Lemma set_slots_id st : set_slots (slots st) st = st.
Proof. by destruct st. Qed.

Lemma initSlots_loop_spec n i st :
  initSlots_loop n i st
  = set_slots (slots st ++ (new_slot st <$> seqZ i (Z.of_nat n))) st.
Proof.
  revert i st. induction n as [|n IH]; intros i st.
  - simpl. rewrite app_nil_r. by rewrite set_slots_id.
  - cbn [initSlots_loop]. rewrite IH.
    rewrite (seqZ_cons i (Z.of_nat (S n))) by lia.
    replace (Z.pred (Z.of_nat (S n))) with (Z.of_nat n) by lia.
    unfold set_slots; simpl. rewrite <- app_assoc. reflexivity.
Qed.

Lemma initSlots_empty st :
  slots st = [] →
  initSlots st
  = set_slots (new_slot st <$> seqZ 1 (Z.of_nat (Z.to_nat (Config.totalSlots (config st))))) st.
Proof.
  intros Hnil. unfold initSlots. rewrite Hnil. cbn [length Nat.eqb negb].
  rewrite initSlots_loop_spec. by rewrite Hnil.
Qed.

Lemma initSlots_nonempty st : slots st ≠ [] → initSlots st = st.
Proof.
  intros Hne. unfold initSlots. by destruct (slots st).
Qed.

Lemma registry_eq cfg :
  registry cfg
  = new_slot (STATE0 cfg) <$> seqZ 1 (Z.of_nat (Z.to_nat (Config.totalSlots cfg))).
Proof. unfold registry. by rewrite initSlots_empty. Qed.

Lemma initSlots_registry_of st :
  slots st = [] → slots (initSlots st) = registry (config st).
Proof.
  intros Hnil. rewrite initSlots_empty by done. by rewrite registry_eq.
Qed.

Lemma registry_ids cfg :
  Slot.id <$> registry cfg = seqZ 1 (Z.of_nat (Z.to_nat (Config.totalSlots cfg))).
Proof.
  rewrite registry_eq, <- list_fmap_compose. apply list_fmap_id.
Qed.

Lemma registry_length cfg : length (registry cfg) = Z.to_nat (Config.totalSlots cfg).
Proof.
  rewrite registry_eq, length_fmap, length_seqZ. lia.
Qed.

Lemma registry_lookup cfg (k : nat) :
  (k < Z.to_nat (Config.totalSlots cfg))%nat →
  registry cfg !! k = Some (new_slot (STATE0 cfg) (1 + Z.of_nat k)).
Proof.
  intros Hk. rewrite registry_eq, list_lookup_fmap.
  rewrite lookup_seqZ_lt by lia. reflexivity.
Qed.

Lemma registry_ok cfg : Forall slot_ok (registry cfg).
Proof.
  rewrite registry_eq. apply Forall_fmap, Forall_forall. by intros i _.
Qed.


(** The category [initSlots] gives to slot [i], in the words of the
    repeating pattern: entry [i mod len] of the list. *)
Lemma new_slot_type st (i : Z) :
  1 ≤ i →
  Slot.type (new_slot st i)
  = Config.typesByRow (config st)
      !! Z.to_nat (i `mod` Z.of_nat (length (Config.typesByRow (config st)))).
Proof.
  intros Hi. unfold new_slot. cbn [Slot.type].
  destruct (Config.typesByRow (config st)) as [|t ts] eqn:Hts; [done |].
  rewrite Z.rem_mod_nonneg by (cbn [length]; lia). reflexivity.
Qed.

(** ** The monad *)

Lemma ends_bind {A B} (m : M A) (f : A → M B) w Q E :
  ends m w (λ a w', ends (f a) w' Q E) E → ends (m ≫= f) w Q E.
Proof.
  unfold ends, mbind, M_bind. by destruct (m w).
Qed.

Lemma ends_mono {A} (m : M A) w (Q Q' : A → World → Prop) (E E' : World → Prop) :
  ends m w Q E → (∀ a w', Q a w' → Q' a w') → (∀ w', E w' → E' w') → ends m w Q' E'.
Proof.
  unfold ends. destruct (m w); eauto.
Qed.

Lemma ends_forEach {A} (f : A → M unit) (l : list A) (I : World → Prop) w :
  I w →
  (∀ x w0, x ∈ l → I w0 → ends (f x) w0 (λ _, I) I) →
  ends (forEach f l) w (λ _, I) I.
Proof.
  revert w. induction l as [|x l IH]; intros w Hw Hf.
  - exact Hw.
  - cbn [forEach]. apply ends_bind.
    eapply ends_mono; [apply (Hf x w); [left | done] | | done].
    intros [] w' Hw'. apply IH; [done |].
    intros y w0 Hy. apply Hf. by right.
Qed.

Lemma upto_timers_refl w : upto_timers w w.
Proof. exists (timers (STATE w)). by destruct w as [[] ? ?]. Qed.

Lemma upto_timers_trans w1 w2 w3 :
  upto_timers w1 w2 → upto_timers w2 w3 → upto_timers w1 w3.
Proof. intros [t1 ->] [t2 ->]. by exists t2. Qed.

Lemma renderDashboard_timers w :
  ends renderDashboard w (λ _, upto_timers w) (upto_timers w).
Proof.
  unfold renderDashboard. apply ends_bind. unfold ends at 1, getState.
  apply ends_forEach; [apply upto_timers_refl |].
  intros s w0 _ Hw0. unfold ends.
  destruct (Slot.occupied s); [| done].
  destruct (Slot.vehicle s); [| done].
  cbn. eapply upto_timers_trans; [done |]. by eexists.
Qed.

Lemma renderAnalytics_same w :
  ends renderAnalytics w (λ _, upto_timers w) (upto_timers w).
Proof.
  unfold renderAnalytics. apply ends_bind. unfold ends at 1, getState.
  apply ends_forEach; [apply upto_timers_refl |].
  intros s w0 _ Hw0. unfold ends. by destruct (Slot.vehicle s).
Qed.

Lemma navigate_timers path w :
  ends (navigate path) w (λ _, upto_timers w) (upto_timers w).
Proof.
  unfold navigate. repeat case_decide.
  - apply renderDashboard_timers.
  - apply renderAnalytics_same.
  - apply upto_timers_refl.
Qed.

(** ** Allocation policy: properties *)

Section sort_by_key.
Context {A : Type} (key : A → Z).

Lemma sort_insert_elem x l y : y ∈ sort_insert (by_key key) x l ↔ y = x ∨ y ∈ l.
Proof.
  induction l as [|z l IH]; cbn [sort_insert].
  - rewrite !elem_of_cons. tauto.
  - destruct (by_key key x z <=? 0); rewrite !elem_of_cons; [tauto |].
    rewrite IH. tauto.
Qed.

Lemma array_sort_elem l y : y ∈ array_sort (by_key key) l ↔ y ∈ l.
Proof.
  induction l as [|x l IH]; [done |].
  cbn [array_sort foldr]. fold (array_sort (by_key key) l).
  rewrite sort_insert_elem, IH, elem_of_cons. tauto.
Qed.

Lemma sort_insert_head x l :
  sort_insert (by_key key) x l !! 0%nat
  = Some (match l with
          | [] => x
          | y :: _ => if key x - key y <=? 0 then x else y
          end).
Proof.
  destruct l as [|y l]; [done |]. cbn [sort_insert]. unfold by_key.
  by destruct (key x - key y <=? 0).
Qed.

(** The first element after sorting has the least key. *)
Lemma array_sort_head l x :
  array_sort (by_key key) l !! 0%nat = Some x →
  x ∈ l ∧ ∀ y, y ∈ l → key x ≤ key y.
Proof.
  revert x. induction l as [|a l IH]; intros x; [done |].
  cbn [array_sort foldr]. fold (array_sort (by_key key) l).
  rewrite sort_insert_head. intros [= <-].
  destruct (array_sort (by_key key) l) as [|z r] eqn:Hs.
  - assert (l = []) as ->.
    { destruct l as [|b l']; [done |].
      assert (b ∈ array_sort (by_key key) (b :: l')) as Hb
        by (apply array_sort_elem; left).
      rewrite Hs in Hb. by apply elem_of_nil in Hb. }
    split; [left |]. intros y ->%list_elem_of_singleton. lia.
  - destruct (IH z eq_refl) as [Hz Hmin].
    destruct (Z.leb_spec (key a - key z) 0) as [Hle|Hgt].
    + split; [left |]. intros y [->|Hy]%elem_of_cons; [lia |].
      specialize (Hmin y Hy). lia.
    + split; [by right |]. intros y [->|Hy]%elem_of_cons; [lia | auto].
Qed.

Lemma array_sort_head_is_Some l : l ≠ [] → is_Some (array_sort (by_key key) l !! 0%nat).
Proof.
  destruct l as [|a l]; [done |]. intros _.
  cbn [array_sort foldr]. rewrite sort_insert_head. eauto.
Qed.
End sort_by_key.

Lemma slot_objects_elem st i s : (i, s) ∈ slot_objects st ↔ slots st !! i = Some s.
Proof.
  unfold slot_objects. rewrite elem_of_lookup_imap. split.
  - by intros (j & y & [= -> ->] & Hy).
  - intros Hs. by exists i, s.
Qed.

Lemma length_eqb_0 {A} (l : list A) : (length l =? 0)%nat = true ↔ l = [].
Proof. destruct l; cbn; split; congruence. Qed.

(** What [nearestEmptySlot] returns, case by case. *)
Lemma nearestEmptySlot_spec type st :
  match nearestEmptySlot type st with
  | Some (i, s) =>
      slots st !! i = Some s ∧ free s ∧
      ((∃ s', s' ∈ slots st ∧ free_of type s') →
       free_of type s ∧ ∀ s', s' ∈ slots st → free_of type s' → Slot.id s ≤ Slot.id s') ∧
      ((¬ ∃ s', s' ∈ slots st ∧ free_of type s') →
       ∀ s', s' ∈ slots st → free s' → Slot.id s ≤ Slot.id s')
  | None => ∀ s, s ∈ slots st → ¬ free s
  end.
Proof.
  unfold nearestEmptySlot.
  set (sameType := filter _ (slot_objects st)).
  set (anyType := filter (λ s, Slot.occupied s.2 = false) (slot_objects st)).
  assert (Hsame : ∀ i s, (i, s) ∈ sameType ↔ free_of type s ∧ slots st !! i = Some s).
  { intros i s. unfold sameType. rewrite list_elem_of_filter, slot_objects_elem. done. }
  assert (Hany : ∀ i s, (i, s) ∈ anyType ↔ free s ∧ slots st !! i = Some s).
  { intros i s. unfold anyType. rewrite list_elem_of_filter, slot_objects_elem. done. }
  change (λ a b : nat * Slot.t, Slot.id a.2 - Slot.id b.2)
    with (by_key (λ a : nat * Slot.t, Slot.id a.2)).
  destruct (length sameType =? 0)%nat eqn:Hlen; cbn [negb].
  - apply length_eqb_0 in Hlen.
    assert (Hno : ¬ ∃ s', s' ∈ slots st ∧ free_of type s').
    { intros (s' & [i Hi]%list_elem_of_lookup & Hf).
      assert ((i, s') ∈ sameType) as Hin by by apply Hsame.
      rewrite Hlen in Hin. by apply elem_of_nil in Hin. }
    destruct (length anyType =? 0)%nat eqn:Hlen'.
    + apply length_eqb_0 in Hlen'. intros s [i Hi]%list_elem_of_lookup Hf.
      assert ((i, s) ∈ anyType) as Hin by by apply Hany.
      rewrite Hlen' in Hin. by apply elem_of_nil in Hin.
    + destruct (array_sort _ anyType !! 0%nat) as [[i s]|] eqn:Hhd.
      * apply array_sort_head in Hhd as [Hin Hmin]. apply Hany in Hin as [Hf Hi].
        split_and!; [done | done | by intros ? | ].
        intros _ s' [j Hj]%list_elem_of_lookup Hf'.
        apply (Hmin (j, s')). by apply Hany.
      * assert (anyType ≠ []) as Hne.
        { intros Heq. rewrite Heq in Hlen'. done. }
        apply (array_sort_head_is_Some (λ a : nat * Slot.t, Slot.id a.2)) in Hne.
        rewrite Hhd in Hne. by destruct Hne.
  - assert (sameType ≠ []) as Hne.
    { intros Heq. rewrite Heq in Hlen. done. }
    rewrite Hlen.
    destruct (array_sort _ sameType !! 0%nat) as [[i s]|] eqn:Hhd.
    + apply array_sort_head in Hhd as [Hin Hmin]. apply Hsame in Hin as [Hf Hi].
      split_and!; [done | by destruct Hf | | ].
      * intros _. split; [done |].
        intros s' [j Hj]%list_elem_of_lookup Hf'. apply (Hmin (j, s')). by apply Hsame.
      * intros Hno. destruct Hno. exists s. split; [| done].
        apply list_elem_of_lookup. eauto.
    + apply (array_sort_head_is_Some (λ a : nat * Slot.t, Slot.id a.2)) in Hne.
      rewrite Hhd in Hne. by destruct Hne.
Qed.

(** ** Persistence: properties *)

Lemma slot_roundtrip s : slot_of_json (json_of_slot s) = Some s.
Proof. destruct s as [i [t|] o [[n ow ty]|] [e|]]; reflexivity. Qed.

Lemma record_roundtrip h : record_of_json (json_of_record h) = Some h.
Proof. destruct h as [n o t s [e|] x d f]; reflexivity. Qed.

Lemma config_roundtrip c : config_of_json (json_of_config c) = Some c.
Proof.
  destruct c as [n ts [m p h]].
  transitivity (ts' ← mapM (M:=option) as_str (JStr <$> ts);
                Some (Config.mk n ts' (Fee.mk m p h))); [reflexivity |].
  by rewrite mapM_fmap_Some.
Qed.

Lemma slots_roundtrip ss : slots_of_json (JArr (json_of_slot <$> ss)) = Some ss.
Proof.
  unfold slots_of_json. cbn [as_arr mbind option_bind].
  apply mapM_fmap_Some, slot_roundtrip.
Qed.

Lemma history_roundtrip hs : history_of_json (JArr (json_of_record <$> hs)) = Some hs.
Proof.
  unfold history_of_json. cbn [as_arr mbind option_bind].
  apply mapM_fmap_Some, record_roundtrip.
Qed.

Lemma snapshot_slots st :
  member (stringify_persist st) "slots" = Some (JArr (json_of_slot <$> slots st)).
Proof. reflexivity. Qed.

Lemma snapshot_history st :
  member (stringify_persist st) "history" = Some (JArr (json_of_record <$> history st)).
Proof. reflexivity. Qed.

Lemma snapshot_config st :
  member (stringify_persist st) "config" = Some (json_of_config (config st)).
Proof. reflexivity. Qed.

Lemma snapshot_theme st :
  member (stringify_persist st) "theme" = Some (JStr (theme st)).
Proof. reflexivity. Qed.

(** [timers] is not among the properties written. *)
Lemma snapshot_timers st : member (stringify_persist st) "timers" = None.
Proof. reflexivity. Qed.

Lemma Object_assign_snapshot st0 st ls sh :
  Object_assign_STATE (stringify_persist st) (mkWorld st0 ls sh)
  = Ret () (mkWorld (mkState (slots st) (history st) (config st) (theme st) ∅) ls sh).
Proof.
  unfold Object_assign_STATE, mbind, M_bind, getState.
  rewrite snapshot_slots, snapshot_history, snapshot_config, snapshot_theme.
  unfold assigned.
  rewrite slots_roundtrip, history_roundtrip, config_roundtrip. reflexivity.
Qed.

(** Loading a snapshot written by [save]. *)
Lemma load_snapshot st0 st sh :
  load (mkWorld st0 (Some (Text_json (stringify_persist st))) sh)
  = Ret () (mkWorld (mkState (slots st) (history st) (config st) (theme st) ∅)
                    (Some (Text_json (stringify_persist st))) sh).
Proof.
  unfold load, try_catch, mbind, M_bind, getItem.
  cbn [localStorage JSON_parse mret M_ret].
  change (property (stringify_persist st) "slots")
    with (mret (M:=M) (member (stringify_persist st) "slots")).
  change (property (stringify_persist st) "history")
    with (mret (M:=M) (member (stringify_persist st) "history")).
  rewrite snapshot_slots, snapshot_history. cbn [mret M_ret truthy].
  by rewrite Object_assign_snapshot.
Qed.

(** Loading when there is nothing to read, or nothing readable. *)
Lemma load_nothing w :
  (match localStorage w with
   | None | Some Text_empty | Some Text_invalid => True
   | Some (Text_json v) => member v "slots" = None ∨ member v "history" = None
   end) →
  load w = Ret () w.
Proof.
  destruct w as [st ls sh]. cbn [localStorage].
  unfold load, try_catch, mbind, M_bind, getItem. cbn [localStorage].
  destruct ls as [[| |v]|]; try done.
  intros Hv. cbn [JSON_parse mret M_ret].
  destruct v; try done. cbn [property mret M_ret member] in *.
  destruct Hv as [-> | Hh]; [done |].
  destruct (truthy (get_prop "slots" props)); [| done].
  by rewrite Hh.
Qed.


(** ** Handlers: what they do to the world *)

Ltac run :=
  unfold mbind, M_bind, mret, M_ret, getState, modifyState, getItem, setItem,
    removeItem, show, raise, untyped, save;
  cbn [STATE localStorage shown].

Lemma ends_outcome (m : M unit) w (P : World → Prop) :
  ends m w (λ _, P) P → ∃ w', outcome m w = Some w' ∧ P w'.
Proof.
  unfold ends, outcome. destruct (m w); [eauto | eauto | done].
Qed.

Lemma outcome_ends (m : M unit) w w' (P : World → Prop) :
  ends m w (λ _, P) P → outcome m w = Some w' → P w'.
Proof.
  unfold ends, outcome. destruct (m w); naive_solver.
Qed.

Lemma entry_submit_full number owner type now w :
  nearestEmptySlot type (STATE w) = None →
  entry_submit number owner type now w
  = Ret () (mkWorld (STATE w) (localStorage w) (shown w ++ [Toast NoEmptySlot "error"])).
Proof.
  intros Hnone. unfold entry_submit, mbind, M_bind, getState. by rewrite Hnone.
Qed.

Lemma entry_submit_parks number owner type now w i s :
  nearestEmptySlot type (STATE w) = Some (i, s) →
  let st' := set_slots (<[i := parked s number owner type now]> (slots (STATE w))) (STATE w) in
  entry_submit number owner type now w
  = Ret () (mkWorld st' (Some (Text_json (stringify_persist st')))
              (shown w ++ [Modal "Vehicle parked";
                           Toast (AssignedSlot (Slot.id s) number) "success"])).
Proof.
  intros Hsome. unfold entry_submit. run. rewrite Hsome. run.
  by rewrite <- app_assoc.
Qed.

Lemma removeVehicle_ignored slotId now confirmed w :
  match list_find (λ x, Slot.id x = slotId) (slots (STATE w)) with
  | None => True
  | Some (_, s) => Slot.occupied s = false
  end →
  removeVehicle slotId now confirmed w = Ret () w.
Proof.
  unfold removeVehicle, removeVehicleFlow, mbind, M_bind, getState.
  destruct (list_find _ _) as [[i s]|]; [| done].
  by intros ->.
Qed.

Lemma removeVehicle_raises slotId now confirmed w i s :
  list_find (λ x, Slot.id x = slotId) (slots (STATE w)) = Some (i, s) →
  Slot.occupied s = true → Slot.vehicle s = None →
  removeVehicle slotId now confirmed w = Raise TypeError w.
Proof.
  intros Hfind Hocc Hveh.
  unfold removeVehicle, removeVehicleFlow, mbind, M_bind, getState.
  by rewrite Hfind, Hocc, Hveh.
Qed.

Lemma removeVehicle_cancelled slotId now w i s v :
  list_find (λ x, Slot.id x = slotId) (slots (STATE w)) = Some (i, s) →
  Slot.occupied s = true → Slot.vehicle s = Some v →
  removeVehicle slotId now false w
  = Ret () (mkWorld (STATE w) (localStorage w) (shown w ++ [Modal "Remove vehicle?"])).
Proof.
  intros Hfind Hocc Hveh.
  unfold removeVehicle, removeVehicleFlow, mbind, M_bind, getState.
  by rewrite Hfind, Hocc, Hveh.
Qed.

Lemma removeVehicle_confirmed slotId now w i s v :
  list_find (λ x, Slot.id x = slotId) (slots (STATE w)) = Some (i, s) →
  Slot.occupied s = true → Slot.vehicle s = Some v →
  ends (removeVehicle slotId now true) w (λ _, removed w i s v now) (removed w i s v now).
Proof.
  intros Hfind Hocc Hveh.
  pose proof Hfind as (Hi & _ & _)%list_find_Some.
  unfold ends, removeVehicle, removeVehicleFlow. run.
  rewrite Hfind, Hocc, Hveh. cbn [negb]. run.
  unfold removeVehicle_confirm. run. cbn [r_slot r_now r_duration r_fee].
  rewrite Hi, Hveh. run.
  match goal with |- context [navigate ?p ?w1] =>
    pose proof (navigate_timers p w1) as Hnav; unfold ends in Hnav;
    destruct (navigate p w1) as [[] w2|e w2|]; [| | done];
    destruct Hnav as [ts ->]
  end; by repeat split.
Qed.

(** The outcome of a removal, case by case. *)
Lemma removeVehicle_outcome slotId now confirmed w :
  ∃ w', outcome (removeVehicle slotId now confirmed) w = Some w' ∧
    match list_find (λ x, Slot.id x = slotId) (slots (STATE w)) with
    | Some (i, s) =>
        match Slot.vehicle s with
        | Some v => if Slot.occupied s && confirmed then removed w i s v now w'
                    else untouched w w'
        | None => untouched w w'
        end
    | None => untouched w w'
    end.
Proof.
  destruct (list_find (λ x, Slot.id x = slotId) (slots (STATE w)))
    as [[i s]|] eqn:Hfind.
  - destruct (Slot.occupied s) eqn:Hocc.
    + destruct (Slot.vehicle s) as [v|] eqn:Hveh.
      * destruct confirmed; cbn [andb].
        -- by apply ends_outcome, removeVehicle_confirmed.
        -- unfold outcome. rewrite (removeVehicle_cancelled _ _ _ _ _ _ Hfind) by done.
           by eexists.
      * unfold outcome. rewrite (removeVehicle_raises _ _ _ _ _ _ Hfind) by done.
        by eexists.
    + unfold outcome. rewrite removeVehicle_ignored by by rewrite Hfind.
      exists w. by destruct (Slot.vehicle s).
  - unfold outcome. rewrite removeVehicle_ignored by by rewrite Hfind.
    by exists w.
Qed.

(** The outcome of an entry, case by case. *)
Lemma entry_submit_outcome number owner type now w :
  ∃ w', outcome (entry_submit number owner type now) w = Some w' ∧
    match nearestEmptySlot type (STATE w) with
    | Some (i, s) => occupied_at w i (parked s number owner type now) w'
    | None => untouched w w'
    end.
Proof.
  unfold outcome.
  destruct (nearestEmptySlot type (STATE w)) as [[i s]|] eqn:Hn.
  - rewrite (entry_submit_parks _ _ _ _ _ _ _ Hn). by eexists.
  - rewrite entry_submit_full by done. by eexists.
Qed.

(** ** What every event preserves *)

Ltac nav :=
  match goal with |- context [navigate ?p ?w1] =>
    let Hnav := fresh "Hnav" in
    let ts := fresh "ts" in
    pose proof (navigate_timers p w1) as Hnav; unfold ends in Hnav;
    destruct (navigate p w1) as [[] ?|? ?|]; [| | done];
    destruct Hnav as [ts ->]
  end.

Lemma state_ok_update cfg st st' i s s' :
  state_ok cfg st → slots st !! i = Some s →
  slot_ok s' → slot_key s' = slot_key s →
  slots st' = <[i := s']> (slots st) → config st' = config st →
  fees_ok cfg st' →
  state_ok cfg st'.
Proof.
  intros (Hall & Hkeys & Hcfg & _) Hi Hok Hkey Hslots Hconfig Hfees.
  split_and!.
  - rewrite Hslots. by apply Forall_insert.
  - rewrite Hslots, list_fmap_insert, Hkey, list_insert_id; [done |].
    by rewrite list_lookup_fmap, Hi.
  - congruence.
  - done.
Qed.

Lemma fees_ok_same cfg st st' : fees_ok cfg st → history st' = history st → fees_ok cfg st'.
Proof. unfold fees_ok. by intros Hf ->. Qed.

Lemma state_ok_same cfg st st' :
  state_ok cfg st → slots st' = slots st → config st' = config st →
  history st' = history st → state_ok cfg st'.
Proof.
  intros (Hall & Hkeys & Hcfg & Hfees) Hs Hc Hh. unfold state_ok, fees_ok. by rewrite Hs, Hc, Hh.
Qed.

Lemma state_ok_registry cfg st :
  slots st = registry cfg → config st = cfg → fees_ok cfg st → state_ok cfg st.
Proof.
  intros Hs Hc Hf. unfold state_ok. rewrite Hs.
  split_and!; [apply registry_ok | done | done | done].
Qed.

Lemma initSlots_ok cfg st :
  config st = cfg → fees_ok cfg st →
  slots st = [] ∨ state_ok cfg st →
  state_ok cfg (initSlots st).
Proof.
  intros Hc Hf Hcase.
  destruct (slots st) as [|s0 ss] eqn:Hs.
  - rewrite initSlots_empty by done.
    apply state_ok_registry; [| done | done]. cbn [slots set_slots].
    by rewrite registry_eq, <- Hc.
  - rewrite initSlots_nonempty by (by rewrite Hs).
    by destruct Hcase as [|Hok].
Qed.

Lemma fees_ok_nil cfg st : history st = [] → fees_ok cfg st.
Proof. intros Hh _. by rewrite Hh. Qed.

Lemma storage_ok_snapshot cfg st :
  state_ok cfg st → storage_ok cfg (Some (Text_json (stringify_persist st))).
Proof. intros Hok. by exists st. Qed.

Lemma world_ok_upto_timers cfg w w' : world_ok cfg w → upto_timers w w' → world_ok cfg w'.
Proof.
  intros [Hst Hls] [ts ->]. split; [| done]. by eapply state_ok_same.
Qed.

Lemma nearestEmptySlot_lookup type st i s :
  nearestEmptySlot type st = Some (i, s) → slots st !! i = Some s ∧ free s.
Proof.
  intros Hn. pose proof (nearestEmptySlot_spec type st) as Hspec.
  rewrite Hn in Hspec. by destruct Hspec as (? & ? & _).
Qed.

Lemma entry_submit_ok cfg number owner type now w :
  world_ok cfg w →
  ends (entry_submit number owner type now) w (λ _, world_ok cfg) (world_ok cfg).
Proof.
  intros [Hst Hls]. unfold ends.
  destruct (nearestEmptySlot type (STATE w)) as [[i s]|] eqn:Hn.
  - rewrite (entry_submit_parks _ _ _ _ _ _ _ Hn).
    apply nearestEmptySlot_lookup in Hn as [Hi _].
    assert (state_ok cfg (set_slots (<[i:=parked s number owner type now]>
                                       (slots (STATE w))) (STATE w))) as Hok.
    { apply (state_ok_update cfg (STATE w) _ i s (parked s number owner type now));
        try done.
      by destruct Hst as (_ & _ & _ & ?). }
    split; [done | by apply storage_ok_snapshot].
  - by rewrite entry_submit_full.
Qed.

Lemma removed_ok cfg w i s v now w' :
  world_ok cfg w → slots (STATE w) !! i = Some s → removed w i s v now w' →
  world_ok cfg w'.
Proof.
  intros [Hst Hls] Hi (Hs & Hh & Hc & Ht & Hl).
  assert (state_ok cfg (STATE w')) as Hok.
  { apply (state_ok_update cfg (STATE w) _ i s (vacated s)); try done.
    destruct Hst as (_ & _ & Hcfg & Hfees). intros Hrate. rewrite Hh.
    constructor; [| by apply Hfees].
    cbn [record_of HistoryRecord.fee]. rewrite <- Hcfg in *.
    by apply computeFee_ge_base. }
  split; [done |]. rewrite Hl. by apply storage_ok_snapshot.
Qed.

Lemma removeVehicle_ok cfg slotId now confirmed w :
  world_ok cfg w →
  ends (removeVehicle slotId now confirmed) w (λ _, world_ok cfg) (world_ok cfg).
Proof.
  intros Hok.
  destruct (list_find (λ x, Slot.id x = slotId) (slots (STATE w))) as [[i s]|] eqn:Hfind;
    [| unfold ends; by rewrite removeVehicle_ignored by by rewrite Hfind].
  destruct (Slot.occupied s) eqn:Hocc;
    [| unfold ends; by rewrite removeVehicle_ignored by by rewrite Hfind].
  destruct (Slot.vehicle s) as [v|] eqn:Hveh;
    [| unfold ends; by rewrite (removeVehicle_raises _ _ _ _ _ _ Hfind)].
  destruct confirmed.
  - eapply ends_mono; [by apply removeVehicle_confirmed | |].
    + intros [] w'. apply removed_ok; [done |].
      by apply list_find_Some in Hfind as (? & _).
    + intros w'. apply removed_ok; [done |].
      by apply list_find_Some in Hfind as (? & _).
  - unfold ends. rewrite (removeVehicle_cancelled _ _ _ _ _ _ Hfind) by done.
    destruct Hok. by split.
Qed.

Lemma navigate_ok cfg path w :
  world_ok cfg w → ends (navigate path) w (λ _, world_ok cfg) (world_ok cfg).
Proof.
  intros Hok. eapply ends_mono; [apply navigate_timers | |].
  - intros [] w'. by apply world_ok_upto_timers.
  - intros w'. by apply world_ok_upto_timers.
Qed.

Lemma resetData_ok cfg path w :
  config (STATE w) = cfg →
  ends (resetData path) w (λ _, world_ok cfg) (world_ok cfg).
Proof.
  intros Hc. unfold ends, resetData. run.
  match goal with |- context [initSlots ?st] =>
    pose proof (initSlots_ok cfg st Hc (fees_ok_nil cfg st eq_refl) (or_introl eq_refl))
      as Hok
  end.
  nav; (split; [by eapply state_ok_same | done]).
Qed.

Lemma boot_ok cfg path ls :
  storage_ok cfg ls →
  ends (boot path) (mkWorld (STATE0 cfg) ls []) (λ _, world_ok cfg) (world_ok cfg).
Proof.
  intros Hls. unfold ends, boot. run.
  destruct ls as [t|].
  - destruct Hls as (st & -> & Hst). rewrite load_snapshot. cbn [STATE localStorage shown].
    match goal with |- context [initSlots ?st1] =>
      assert (state_ok cfg st1) as Hst1 by (by eapply state_ok_same; [apply Hst | | |]);
      pose proof (initSlots_ok cfg st1 (proj1 (proj2 (proj2 Hst)))
                    (proj2 (proj2 (proj2 Hst1))) (or_intror Hst1)) as Hok
    end.
    nav; (split; [by eapply state_ok_same | by apply storage_ok_snapshot]).
  - rewrite load_nothing by done. cbn [STATE localStorage shown].
    pose proof (initSlots_ok cfg (STATE0 cfg) eq_refl
                  (fees_ok_nil cfg (STATE0 cfg) eq_refl) (or_introl eq_refl)) as Hok.
    nav; (split; [by eapply state_ok_same | done]).
Qed.

Lemma handle_ok cfg e w :
  world_ok cfg w → ends (handle cfg e) w (λ _, world_ok cfg) (world_ok cfg).
Proof.
  intros Hok. destruct e; cbn [handle].
  - apply boot_ok, Hok.
  - by apply navigate_ok.
  - by apply entry_submit_ok.
  - by apply removeVehicle_ok.
  - apply resetData_ok. by destruct Hok as [(_ & _ & ? & _) _].
  - unfold themeToggle. apply ends_bind. unfold ends at 1, getState.
    case_decide.
    + unfold ends. run. destruct Hok as [Hst Hls]. split; [| done].
      by eapply state_ok_same.
    + apply boot_ok, Hok.
Qed.

(** Every world the page reaches satisfies [world_ok]. *)
Lemma reachable_ok cfg w : reachable cfg w → world_ok cfg w.
Proof.
  induction 1 as [path w Hw | w e w' _ IH Hw].
  - eapply outcome_ends; [| exact Hw]. by apply boot_ok.
  - eapply outcome_ends; [| exact Hw]. by apply handle_ok.
Qed.

(** In a reachable world every event is handled within the model. *)
Lemma reachable_next cfg w e : reachable cfg w → ∃ w', after cfg e w = Some w'.
Proof.
  intros Hr%reachable_ok.
  destruct (ends_outcome (handle cfg e) w (world_ok cfg)) as (w' & Hw' & _);
    [by apply handle_ok | eauto].
Qed.

Lemma reachable_ids_NoDup cfg w : reachable cfg w → NoDup (Slot.id <$> slots (STATE w)).
Proof.
  intros [(_ & Hkeys & _) _]%reachable_ok.
  assert (Slot.id <$> slots (STATE w) = Slot.id <$> registry cfg) as ->.
  { change Slot.id with (fst ∘ slot_key). by rewrite !list_fmap_compose, Hkeys. }
  rewrite registry_ids. apply NoDup_seqZ.
Qed.

(** With prices that are not negative, no fee in a reachable history is. *)
Lemma reachable_fees_nonneg cfg w :
  0 ≤ Fee.basePrice (Config.fee cfg) → 0 ≤ Fee.hourlyAfter (Config.fee cfg) →
  reachable cfg w →
  Forall (λ h, 0 ≤ HistoryRecord.fee h) (history (STATE w)).
Proof.
  intros Hbase Hrate [(_ & _ & _ & Hfees) _]%reachable_ok.
  eapply Forall_impl; [by apply Hfees |]. intros h Hh. cbn in Hh. lia.
Qed.

(** ** The properties of the specification *)

Lemma list_find_NoDup_id (l : list Slot.t) i s :
  NoDup (Slot.id <$> l) → l !! i = Some s →
  list_find (λ x, Slot.id x = Slot.id s) l = Some (i, s).
Proof.
  intros Hnd Hi. apply list_find_Some. split_and!; [done | done |].
  intros j y Hj Hlt Hid.
  assert (j = i); [| lia].
  apply (NoDup_lookup (Slot.id <$> l) j i (Slot.id s)); [done | |].
  - by rewrite list_lookup_fmap, Hj, <- Hid.
  - by rewrite list_lookup_fmap, Hi.
Qed.



(** C1. Allocation selects the free slot with the smallest id among the
    free slots of the requested category; when there is none, the free slot
    with the smallest id among all free slots; and when no slot is free, it
    selects none, the entry handler reports that no slot is available, and
    neither [STATE] nor the stored snapshot changes. *)
Theorem nearestEmptySlot_policy (type : string) (st : State) :
  ((∃ s', s' ∈ slots st ∧ free_of type s') →
   ∃ i s, nearestEmptySlot type st = Some (i, s) ∧ slots st !! i = Some s ∧
          free_of type s ∧
          ∀ s', s' ∈ slots st → free_of type s' → Slot.id s ≤ Slot.id s') ∧
  ((¬ ∃ s', s' ∈ slots st ∧ free_of type s') → (∃ s', s' ∈ slots st ∧ free s') →
   ∃ i s, nearestEmptySlot type st = Some (i, s) ∧ slots st !! i = Some s ∧
          free s ∧
          ∀ s', s' ∈ slots st → free s' → Slot.id s ≤ Slot.id s') ∧
  ((∀ s', s' ∈ slots st → ¬ free s') →
   nearestEmptySlot type st = None ∧
   ∀ number owner now ls sh,
     entry_submit number owner type now (mkWorld st ls sh)
     = Ret () (mkWorld st ls (sh ++ [Toast NoEmptySlot "error"]))).
Proof.
  pose proof (nearestEmptySlot_spec type st) as Hspec.
  destruct (nearestEmptySlot type st) as [[i s]|] eqn:Hn.
  - destruct Hspec as (Hi & Hfree & Hsame & Hany). split_and!.
    + intros Hex. destruct (Hsame Hex) as [Hf Hmin]. by exists i, s.
    + intros Hno _. exists i, s. split_and!; [done | done | done | by apply Hany].
    + intros Hfull. destruct (Hfull s); [| done].
      apply list_elem_of_lookup. eauto.
  - split_and!.
    + intros (s' & Hs' & Hf & _). by destruct (Hspec s' Hs').
    + intros _ (s' & Hs' & Hf). by destruct (Hspec s' Hs').
    + intros _. split; [done |]. intros. by rewrite entry_submit_full.
Qed.

(** C3. Parking a vehicle and then removing it from the slot it was given
    leaves that slot free again, with vehicle and entry time cleared, and
    puts exactly one record in front of the history, carrying the plate,
    the owner and the category of the vehicle and the id of the slot; every
    other slot and every earlier record is as before. *)
Theorem park_then_remove (cfg : Config.t) (number owner type : string)
    (now1 now2 : Z) (w : World) (i : nat) (s : Slot.t) :
  NoDup (Slot.id <$> slots (STATE w)) →
  nearestEmptySlot type (STATE w) = Some (i, s) →
  ∃ w1 w2,
    after cfg (EntrySubmit number owner type now1) w = Some w1 ∧
    slots (STATE w1) !! i = Some (parked s number owner type now1) ∧
    after cfg (RemoveClick (Slot.id s) now2 true) w1 = Some w2 ∧
    slots (STATE w2) !! i = Some (vacated s) ∧
    (∀ j, j ≠ i → slots (STATE w2) !! j = slots (STATE w) !! j) ∧
    history (STATE w2)
    = HistoryRecord.mk number owner type (Slot.id s) (Some now1) now2 (now2 - now1)
                       (computeFee (STATE w) (now2 - now1))
      :: history (STATE w).
Proof.
  intros Hnd Hn.
  pose proof (nearestEmptySlot_lookup _ _ _ _ Hn) as [Hi _].
  pose proof (lookup_lt_Some _ _ _ Hi) as Hlt.
  pose proof (entry_submit_parks number owner type now1 w i s Hn) as Hpark.
  cbn zeta in Hpark. revert Hpark.
  set (w1 := mkWorld _ _ _). intros Hpark.
  assert (list_find (λ x, Slot.id x = Slot.id s) (slots (STATE w1))
          = Some (i, parked s number owner type now1)) as Hfind.
  { apply (list_find_NoDup_id _ i (parked s number owner type now1)).
    - cbn [w1 STATE slots set_slots]. rewrite list_fmap_insert.
      rewrite list_insert_id; [done |]. by rewrite list_lookup_fmap, Hi.
    - by apply list_lookup_insert_eq. }
  destruct (ends_outcome _ _ _ (removeVehicle_confirmed _ now2 _ _ _ _ Hfind eq_refl eq_refl))
    as (w2 & Hw2 & Hs & Hh & _).
  exists w1, w2. unfold after, outcome at 1. cbn [handle]. rewrite Hpark.
  split; [reflexivity |].
  split; [by apply list_lookup_insert_eq |].
  split; [exact Hw2 |].
  rewrite Hs, Hh. cbn [w1 STATE slots history set_slots].
  rewrite list_insert_insert_eq.
  split_and!;
    [by apply list_lookup_insert_eq
    | by intros j Hj; apply list_lookup_insert_ne
    | reflexivity].
Qed.

Lemma park_then_remove_witness :
  NoDup (Slot.id <$> slots (STATE demo_world)) ∧
  nearestEmptySlot "car" (STATE demo_world)
  = Some (0%nat, Slot.mk 1 (Some "car"%string) false None None) ∧
  ∃ w1 w2,
    after small_config (EntrySubmit "TN38AB1234" "Priya" "car" 1000) demo_world = Some w1 ∧
    slots (STATE w1) !! 0%nat
    = Some (Slot.mk 1 (Some "car"%string) true
              (Some (Vehicle.mk "TN38AB1234" "Priya" "car")) (Some 1000)) ∧
    after small_config (RemoveClick 1 1861000 true) w1 = Some w2 ∧
    slots (STATE w2) !! 0%nat = Some (Slot.mk 1 (Some "car"%string) false None None) ∧
    (∀ j, j ≠ 0%nat → slots (STATE w2) !! j = slots (STATE demo_world) !! j) ∧
    history (STATE w2)
    = [HistoryRecord.mk "TN38AB1234" "Priya" "car" 1 (Some 1000) 1861000 1860000 70].
Proof.
  assert (NoDup (Slot.id <$> slots (STATE demo_world))) as Hnd
    by (apply (bool_decide_unpack _); vm_compute; exact I).
  split; [exact Hnd |]. split; [reflexivity |].
  exact (park_then_remove small_config "TN38AB1234" "Priya" "car" 1000 1861000
           demo_world 0 (Slot.mk 1 (Some "car"%string) false None None) Hnd eq_refl).
Defined.

(** The removal of a vehicle from an unknown slot, and from a free slot,
    is not reported to anyone. *)
Lemma release_failure_not_reported :
  ¬ release_failure_reported demo_world 99 1000 ∧
  ¬ release_failure_reported demo_world 1 1000.
Proof.
  split; intros Hrep; vm_compute in Hrep; [| specialize (Hrep eq_refl)];
    by apply Hrep.
Qed.

(** C4, as the script has it. Removing from a slot whose id is unknown, or
    from a known slot that is not occupied, is ignored without a word: the
    handler returns normally, shows nothing, and leaves the slots, the
    history and the stored snapshot exactly as they were. *)
Theorem release_ignored (slotId now : Z) (confirmed : bool) (w : World) :
  (list_find (λ x, Slot.id x = slotId) (slots (STATE w)) = None ∨
   ∃ i s, list_find (λ x, Slot.id x = slotId) (slots (STATE w)) = Some (i, s) ∧
          Slot.occupied s = false) →
  removeVehicle slotId now confirmed w = Ret () w ∧
  ¬ reports_failure (removeVehicle slotId now confirmed) w.
Proof.
  intros Hcase.
  assert (removeVehicle slotId now confirmed w = Ret () w) as Heq.
  { apply removeVehicle_ignored. by destruct Hcase as [-> | (i & s & -> & ?)]. }
  split; [done |]. unfold reports_failure. rewrite Heq. by intros [].
Qed.

Lemma release_ignored_witness :
  (list_find (λ x, Slot.id x = 99) (slots (STATE demo_world)) = None ∨
   ∃ i s, list_find (λ x, Slot.id x = 99) (slots (STATE demo_world)) = Some (i, s) ∧
          Slot.occupied s = false) ∧
  removeVehicle 99 1000 true demo_world = Ret () demo_world ∧
  ¬ reports_failure (removeVehicle 99 1000 true) demo_world.
Proof.
  assert (list_find (λ x, Slot.id x = 99) (slots (STATE demo_world)) = None) as Hnone
    by reflexivity.
  split; [by left |].
  exact (release_ignored 99 1000 true demo_world (or_introl Hnone)).
Defined.

(** C5. After initialisation [occupied] of every slot says whether its
    vehicle and entry time are set.  An entry and a removal keep that so
    and leave ids and categories as they are; a reset makes it so.  In
    every world the page reaches by whatever entries, removals, loads and
    resets it holds, and the ids and categories of the slots are those
    given at creation. *)
Theorem slot_invariant (cfg : Config.t) :
  Forall slot_ok (registry cfg) ∧
  (∀ w w' number owner type now,
     Forall slot_ok (slots (STATE w)) →
     outcome (entry_submit number owner type now) w = Some w' →
     Forall slot_ok (slots (STATE w')) ∧
     slot_key <$> slots (STATE w') = slot_key <$> slots (STATE w)) ∧
  (∀ w w' slotId now confirmed,
     Forall slot_ok (slots (STATE w)) →
     outcome (removeVehicle slotId now confirmed) w = Some w' →
     Forall slot_ok (slots (STATE w')) ∧
     slot_key <$> slots (STATE w') = slot_key <$> slots (STATE w)) ∧
  (∀ w w' path,
     outcome (resetData path) w = Some w' → Forall slot_ok (slots (STATE w'))) ∧
  (∀ w, reachable cfg w →
     Forall slot_ok (slots (STATE w)) ∧
     slot_key <$> slots (STATE w) = slot_key <$> registry cfg).
Proof.
  split_and!.
  - apply registry_ok.
  - intros w w' number owner type now Hall Hout.
    destruct (entry_submit_outcome number owner type now w) as (w1 & Hout1 & Hcase).
    rewrite Hout in Hout1. injection Hout1 as <-.
    destruct (nearestEmptySlot type (STATE w)) as [[i s]|] eqn:Hn;
      [| by destruct Hcase as [-> _]].
    apply nearestEmptySlot_lookup in Hn as [Hi _].
    destruct Hcase as (-> & _). split.
    + by apply Forall_insert.
    + rewrite list_fmap_insert. apply list_insert_id.
      by rewrite list_lookup_fmap, Hi.
  - intros w w' slotId now confirmed Hall Hout.
    destruct (removeVehicle_outcome slotId now confirmed w) as (w1 & Hout1 & Hcase).
    rewrite Hout in Hout1. injection Hout1 as <-.
    destruct (list_find _ _) as [[i s]|] eqn:Hfind; [| by destruct Hcase as [-> _]].
    destruct (Slot.vehicle s) as [v|]; [| by destruct Hcase as [-> _]].
    destruct (Slot.occupied s && confirmed); [| by destruct Hcase as [-> _]].
    apply list_find_Some in Hfind as (Hi & _ & _).
    destruct Hcase as (-> & _). split.
    + by apply Forall_insert.
    + rewrite list_fmap_insert. apply list_insert_id.
      by rewrite list_lookup_fmap, Hi.
  - intros w w' path Hout.
    destruct (outcome_ends _ _ _ _ (resetData_ok _ path w eq_refl) Hout) as [(? & _) _].
    done.
  - by intros w [(Hall & Hkeys & _) _]%reachable_ok.
Qed.

Lemma demo_parked_reachable : reachable small_config demo_parked.
Proof.
  apply (reach_next _ demo_world (EntrySubmit "TN38AB1234" "Priya" "car" 1000));
    [| reflexivity].
  by apply (reach_open _ "/"%string).
Qed.

Lemma slot_invariant_witness :
  reachable small_config demo_parked ∧
  Forall slot_ok (slots (STATE demo_parked)) ∧
  slot_key <$> slots (STATE demo_parked) = slot_key <$> registry small_config.
Proof.
  split; [exact demo_parked_reachable |].
  destruct (slot_invariant small_config) as (_ & _ & _ & _ & Hreach).
  exact (Hreach demo_parked demo_parked_reachable).
Defined.

(** C6. What [save] stores has no [timers] property, and loading it, into
    whatever [STATE] there is, gives back the slots, the history, the
    configuration and the theme that were saved, with no timers. *)
Theorem save_load_roundtrip (st st0 : State) (ls : option stored_text) (sh sh0 : list ui) :
  ∃ v,
    save (mkWorld st ls sh) = Ret () (mkWorld st (Some (Text_json v)) sh) ∧
    member v "timers" = None ∧
    load (mkWorld st0 (Some (Text_json v)) sh0)
    = Ret () (mkWorld (mkState (slots st) (history st) (config st) (theme st) ∅)
                (Some (Text_json v)) sh0).
Proof.
  exists (stringify_persist st). split_and!.
  - reflexivity.
  - apply snapshot_timers.
  - apply load_snapshot.
Qed.



(** C9. On an empty registry [initSlots] creates [totalSlots] slots; the
    slot at position [i - 1] has id [i], is free, and has the category at
    index [i mod len] of [typesByRow], so that with the default categories
    slot 1 gets the second one.  In every world the page reaches the
    registry has [totalSlots] slots. *)
Theorem initSlots_builds_registry :
  (∀ st, slots st = [] →
     let N := Config.totalSlots (config st) in
     let categories := Config.typesByRow (config st) in
     length (slots (initSlots st)) = Z.to_nat N ∧
     ∀ i : Z, 1 ≤ i ≤ N →
       slots (initSlots st) !! Z.to_nat (i - 1)
       = Some (Slot.mk i (categories !! Z.to_nat (i `mod` Z.of_nat (length categories)))
                 false None None)) ∧
  registry default_config !! 0%nat = Some (Slot.mk 1 (Some "bike"%string) false None None) ∧
  (∀ cfg w, reachable cfg w →
     length (slots (STATE w)) = Z.to_nat (Config.totalSlots cfg)).
Proof.
  split_and!.
  - intros st Hnil N categories. rewrite initSlots_empty by done.
    cbn [slots set_slots]. split.
    + rewrite length_fmap, length_seqZ. lia.
    + intros i Hi. rewrite list_lookup_fmap, lookup_seqZ_lt by lia.
      cbn [fmap option_fmap option_map].
      replace (1 + Z.of_nat (Z.to_nat (i - 1))) with i by lia.
      pose proof (new_slot_type st i ltac:(lia)) as Hty.
      unfold new_slot in *. cbn [Slot.type] in Hty. by rewrite Hty.
  - reflexivity.
  - intros cfg w [(_ & Hkeys & _) _]%reachable_ok.
    rewrite <- registry_length.
    by rewrite <- (length_fmap slot_key), Hkeys, length_fmap.
Qed.

(** C10. A removal that takes place vacates the one slot it was asked
    for, keeping its id and category, and puts one record in front of the
    history; the slots at all other positions and the earlier records stay
    as they are.  A removal that does not take place changes neither slots
    nor history.  An entry leaves the history as it is and occupies the
    slot that [nearestEmptySlot] chose and no other, or no slot at all. *)
Theorem frame (w : World) :
  (∀ slotId now confirmed, ∃ w',
     outcome (removeVehicle slotId now confirmed) w = Some w' ∧
     match list_find (λ x, Slot.id x = slotId) (slots (STATE w)) with
     | Some (i, s) =>
         match Slot.vehicle s with
         | Some v =>
             if Slot.occupied s && confirmed then
               slots (STATE w') !! i = Some (vacated s) ∧
               (∀ j, j ≠ i → slots (STATE w') !! j = slots (STATE w) !! j) ∧
               length (slots (STATE w')) = length (slots (STATE w)) ∧
               history (STATE w') = record_of (STATE w) s v now :: history (STATE w)
             else slots (STATE w') = slots (STATE w) ∧ history (STATE w') = history (STATE w)
         | None => slots (STATE w') = slots (STATE w) ∧ history (STATE w') = history (STATE w)
         end
     | None => slots (STATE w') = slots (STATE w) ∧ history (STATE w') = history (STATE w)
     end) ∧
  (∀ number owner type now, ∃ w',
     outcome (entry_submit number owner type now) w = Some w' ∧
     history (STATE w') = history (STATE w) ∧
     match nearestEmptySlot type (STATE w) with
     | Some (i, s) =>
         slots (STATE w') !! i = Some (parked s number owner type now) ∧
         (∀ j, j ≠ i → slots (STATE w') !! j = slots (STATE w) !! j) ∧
         length (slots (STATE w')) = length (slots (STATE w))
     | None => slots (STATE w') = slots (STATE w)
     end).
Proof.
  split.
  - intros slotId now confirmed.
    destruct (removeVehicle_outcome slotId now confirmed w) as (w' & Hout & Hcase).
    exists w'. split; [done |].
    destruct (list_find _ _) as [[i s]|] eqn:Hfind;
      [| destruct Hcase as [-> _]; done].
    destruct (Slot.vehicle s) as [v|]; [| destruct Hcase as [-> _]; done].
    destruct (Slot.occupied s && confirmed); [| destruct Hcase as [-> _]; done].
    apply list_find_Some in Hfind as (Hi & _ & _).
    pose proof (lookup_lt_Some _ _ _ Hi) as Hlt.
    destruct Hcase as (Hs & Hh & _). rewrite Hs, Hh. split_and!.
    + by apply list_lookup_insert_eq.
    + intros j Hj. by apply list_lookup_insert_ne.
    + apply length_insert.
    + reflexivity.
  - intros number owner type now.
    destruct (entry_submit_outcome number owner type now w) as (w' & Hout & Hcase).
    exists w'. split; [done |].
    destruct (nearestEmptySlot type (STATE w)) as [[i s]|] eqn:Hn;
      [| destruct Hcase as [-> _]; done].
    apply nearestEmptySlot_lookup in Hn as [Hi _].
    pose proof (lookup_lt_Some _ _ _ Hi) as Hlt.
    destruct Hcase as (Hs & Hh & _). rewrite Hs. split_and!.
    + done.
    + by apply list_lookup_insert_eq.
    + intros j Hj. by apply list_lookup_insert_ne.
    + apply length_insert.
Qed.

(** ** Revenue series: properties *)













(** ** A run of the page *)

(** Three car slots: three entries take slots 1, 2 and 3, a fourth is
    turned away, and after the vehicle in slot 2 has left the next entry
    gets slot 2. *)
Example three_car_slots :
  shown <$> run_events small_config
    [EntrySubmit "TN01A0001" "Asha" "car" 1000;
     EntrySubmit "TN01A0002" "Bala" "car" 2000;
     EntrySubmit "TN01A0003" "Chitra" "car" 3000;
     EntrySubmit "TN01A0004" "Deepa" "car" 4000;
     RemoveClick 2 1862000 true;
     EntrySubmit "TN01A0005" "Esha" "car" 1900000] demo_world
  = Some [Modal "Vehicle parked"; Toast (AssignedSlot 1 "TN01A0001") "success";
          Modal "Vehicle parked"; Toast (AssignedSlot 2 "TN01A0002") "success";
          Modal "Vehicle parked"; Toast (AssignedSlot 3 "TN01A0003") "success";
          Toast NoEmptySlot "error";
          Modal "Remove vehicle?"; Toast (RemovedFee 2 70) "success";
          Invoice 2 (HistoryRecord.mk "TN01A0002" "Bala" "car" 2 (Some 2000)
                       1862000 1860000 70);
          Modal "Vehicle parked"; Toast (AssignedSlot 2 "TN01A0005") "success"].
Proof. reflexivity. Qed.

(** ** More on the fee *)

Lemma ceil_div_mono a b c : 0 < c → a ≤ b → ceil_div a c ≤ ceil_div b c.
Proof.
  intros Hc Hab. unfold ceil_div.
  pose proof (Z.div_le_mono (- b) (- a) c Hc ltac:(lia)). lia.
Qed.

Lemma ceil_div_add a b k : 0 < b → ceil_div (a + k * b) b = ceil_div a b + k.
Proof.
  intros Hb. unfold ceil_div.
  replace (- (a + k * b)) with (- a + (- k) * b) by lia.
  rewrite Z.div_add by lia. lia.
Qed.

Lemma ceil_div_gt a b m : 0 < b → (m < ceil_div a b ↔ b * m < a).
Proof.
  intros Hb. destruct (ceil_div_bounds a b Hb) as [Hlo Hhi]. split; intros; nia.
Qed.

(** X1. With an hourly rate that is not negative, the fee is never below
    the base price and never falls when the duration grows. *)
Theorem computeFee_monotone (st : State) (ms1 ms2 : Z) :
  0 ≤ Fee.hourlyAfter (Config.fee (config st)) →
  ms1 ≤ ms2 →
  Fee.basePrice (Config.fee (config st)) ≤ computeFee st ms1 ∧
  computeFee st ms1 ≤ computeFee st ms2.
Proof.
  intros Hrate Hle. split; [by apply computeFee_ge_base |].
  pose proof (computeFee_ge_base st ms2 Hrate) as Hbase2.
  pose proof (ceil_div_mono ms1 ms2 60000 ltac:(lia) Hle) as Hmin.
  unfold computeFee in *.
  destruct (Config.fee (config st)) as [bm bp ha]; cbn [Fee.hourlyAfter Fee.basePrice] in *.
  destruct (Z.leb_spec (ceil_div ms1 60000) bm) as [H1|H1]; [done |].
  destruct (Z.leb_spec (ceil_div ms2 60000) bm) as [H2|H2]; [lia |].
  pose proof (ceil_div_mono (ceil_div ms1 60000 - bm) (ceil_div ms2 60000 - bm) 60
                ltac:(lia) ltac:(lia)).
  nia.
Qed.

Lemma computeFee_monotone_witness :
  0 ≤ Fee.hourlyAfter (Config.fee (config (STATE0 default_config))) ∧
  1800000 ≤ 1860000 ∧
  20 ≤ computeFee (STATE0 default_config) 1800000 ∧
  computeFee (STATE0 default_config) 1800000 ≤ computeFee (STATE0 default_config) 1860000.
Proof.
  assert (0 ≤ Fee.hourlyAfter (Config.fee (config (STATE0 default_config)))) as Hrate
    by (cbn; lia).
  assert (1800000 ≤ 1860000) as Hle by lia.
  split; [exact Hrate |]. split; [exact Hle |].
  exact (computeFee_monotone (STATE0 default_config) 1800000 1860000 Hrate Hle).
Defined.

(** X2. Beyond the base minutes every further hour costs the hourly rate:
    [k] hours more add [k] times [hourlyAfter] to the fee. *)
Theorem computeFee_hourly_step (st : State) (ms k : Z) :
  60000 * Fee.baseMinutes (Config.fee (config st)) < ms →
  0 ≤ k →
  computeFee st (ms + k * 3600000)
  = computeFee st ms + k * Fee.hourlyAfter (Config.fee (config st)).
Proof.
  intros Hms Hk. unfold computeFee.
  destruct (Config.fee (config st)) as [bm bp ha];
    cbn [Fee.hourlyAfter Fee.basePrice Fee.baseMinutes] in *.
  replace (ms + k * 3600000) with (ms + (60 * k) * 60000) by lia.
  rewrite ceil_div_add by lia.
  apply (ceil_div_gt ms 60000 bm ltac:(lia)) in Hms.
  destruct (Z.leb_spec (ceil_div ms 60000) bm) as [H1|H1]; [lia |].
  destruct (Z.leb_spec (ceil_div ms 60000 + 60 * k) bm) as [H2|H2]; [lia |].
  replace (ceil_div ms 60000 + 60 * k - bm) with (ceil_div ms 60000 - bm + k * 60) by lia.
  rewrite ceil_div_add by lia. lia.
Qed.

Lemma computeFee_hourly_step_witness :
  60000 * Fee.baseMinutes (Config.fee (config (STATE0 default_config))) < 1860000 ∧
  0 ≤ 2 ∧
  computeFee (STATE0 default_config) (1860000 + 2 * 3600000)
  = computeFee (STATE0 default_config) 1860000
    + 2 * Fee.hourlyAfter (Config.fee (config (STATE0 default_config))).
Proof.
  assert (60000 * Fee.baseMinutes (Config.fee (config (STATE0 default_config))) < 1860000)
    as Hms by (cbn; lia).
  assert (0 ≤ 2) as Hk by lia.
  split; [exact Hms |]. split; [exact Hk |].
  exact (computeFee_hourly_step (STATE0 default_config) 1860000 2 Hms Hk).
Defined.

(** ** Duration text: properties *)

Lemma list_ascii_app (a b : string) :
  list_ascii_of_string (a +:+ b) = list_ascii_of_string a ++ list_ascii_of_string b.
Proof.
  induction a as [|c a IH]; [done |].
  change (String c a +:+ b) with (String c (a +:+ b)). cbn. by rewrite IH.
Qed.

Lemma list_ascii_length (a : string) : length (list_ascii_of_string a) = String.length a.
Proof. induction a as [|c a IH]; [done |]. cbn. by rewrite IH. Qed.

Lemma list_ascii_replicate n c :
  list_ascii_of_string (string_of_list_ascii (replicate n c)) = replicate n c.
Proof. apply list_ascii_of_string_of_list_ascii. Qed.

Lemma pretty_N_char_digit x : digit (pretty_N_char x) = true.
Proof. unfold pretty_N_char. by repeat case_match. Qed.

Lemma pretty_N_go_digits x s :
  Forall (λ c, digit c = true) (list_ascii_of_string s) →
  Forall (λ c, digit c = true) (list_ascii_of_string (pretty_N_go x s)).
Proof.
  revert s. induction (N.lt_wf_0 x) as [x _ IH]; intros s Hs.
  assert (x = 0 ∨ 0 < x)%N as [-> | Hx] by lia; [by rewrite pretty_N_go_0 |].
  rewrite pretty_N_go_step by done. apply IH; [by apply N.div_lt |].
  cbn. constructor; [apply pretty_N_char_digit | done].
Qed.

Lemma pretty_N_go_length x s : (String.length s ≤ String.length (pretty_N_go x s))%nat.
Proof.
  revert s. induction (N.lt_wf_0 x) as [x _ IH]; intros s.
  assert (x = 0 ∨ 0 < x)%N as [-> | Hx] by lia; [by rewrite pretty_N_go_0 |].
  rewrite pretty_N_go_step by done.
  etrans; [| apply IH; by apply N.div_lt]. cbn. lia.
Qed.

(** A positive number is written without a leading zero. *)
Lemma pretty_N_go_lead x s :
  (0 < x)%N →
  ∃ c r, pretty_N_go x s = String c r ∧ c ≠ "0"%char ∧
         (String.length s ≤ String.length r)%nat.
Proof.
  revert s. induction (N.lt_wf_0 x) as [x _ IH]; intros s Hx.
  rewrite pretty_N_go_step by done.
  destruct (N.eq_0_gt_0_cases (x `div` 10)) as [Hd | Hd].
  - rewrite Hd, pretty_N_go_0. eexists _, _. split; [done |]. split; [| done].
    assert (x < 10)%N as Hlt by (by apply N.div_small_iff in Hd).
    rewrite N.mod_small by done.
    assert (x = 1 ∨ x = 2 ∨ x = 3 ∨ x = 4 ∨ x = 5 ∨ x = 6 ∨ x = 7 ∨ x = 8 ∨ x = 9)%N
      as Hcases by lia.
    destruct Hcases as [-> | [-> | [-> | [-> | [-> | [-> | [-> | [-> | ->]]]]]]]]; done.
  - destruct (IH (x `div` 10)%N (N.div_lt x 10 Hx eq_refl)
                (String (pretty_N_char (x `mod` 10)) s) Hd) as (c & r & -> & Hc & Hlen).
    eexists _, _. split; [done |]. split; [done |]. cbn in Hlen. lia.
Qed.

Lemma pretty_Z_digits (n : Z) :
  0 ≤ n → Forall (λ c, digit c = true) (list_ascii_of_string (pretty n)).
Proof.
  intros Hn. destruct n as [|p|p]; [by repeat constructor | | lia].
  unfold pretty, pretty_Z, pretty, pretty_positive, pretty, pretty_N.
  case_decide; [done |]. by apply pretty_N_go_digits.
Qed.

Lemma pretty_Z_lead (n : Z) :
  0 < n → ∃ c r, pretty n = String c r ∧ c ≠ "0"%char.
Proof.
  intros Hn. destruct n as [|p|p]; [lia | | lia].
  unfold pretty, pretty_Z, pretty, pretty_positive, pretty, pretty_N.
  case_decide; [done |].
  destruct (pretty_N_go_lead (N.pos p) "" ltac:(lia)) as (c & r & -> & Hc & _). eauto.
Qed.

Lemma pretty_Z_length (n : Z) : 0 ≤ n → (1 ≤ String.length (pretty n))%nat.
Proof.
  intros Hn. destruct (decide (n = 0)) as [-> | Hne]; [done |].
  destruct (pretty_Z_lead n ltac:(lia)) as (c & r & -> & _). cbn. lia.
Qed.

Lemma pad2_digits (n : Z) :
  0 ≤ n → Forall (λ c, digit c = true) (list_ascii_of_string (pad2 n)).
Proof.
  intros Hn. unfold pad2, padStart. rewrite list_ascii_app, list_ascii_replicate.
  apply Forall_app. split; [by apply Forall_replicate | by apply pretty_Z_digits].
Qed.

Lemma pad2_length (n : Z) :
  String.length (pad2 n) = (2 `max` String.length (pretty n))%nat.
Proof.
  unfold pad2, padStart. rewrite <- !list_ascii_length, list_ascii_app, list_ascii_replicate.
  rewrite length_app, length_replicate. lia.
Qed.

Lemma pad2_inj (x y : Z) : 0 ≤ x → 0 ≤ y → pad2 x = pad2 y → x = y.
Proof.
  intros Hx Hy Heq.
  pose proof (f_equal String.length Heq) as Hlen. rewrite !pad2_length in Hlen.
  pose proof (pretty_Z_length x Hx) as Hlx. pose proof (pretty_Z_length y Hy) as Hly.
  apply (f_equal list_ascii_of_string) in Heq. unfold pad2, padStart in Heq.
  rewrite !list_ascii_app, !list_ascii_replicate in Heq.
  assert (∀ a b : Z, 0 ≤ a → 0 ≤ b → String.length (pretty a) = 1%nat →
                     String.length (pretty b) = 2%nat →
                     "0"%char :: list_ascii_of_string (pretty a)
                     = list_ascii_of_string (pretty b) → False) as Hmixed.
  { intros a b Ha Hb Hla Hlb Hab.
    destruct (decide (b = 0)) as [-> | Hne]; [done |].
    destruct (pretty_Z_lead b ltac:(lia)) as (c & r & Hb' & Hc).
    rewrite Hb' in Hab. cbn in Hab. congruence. }
  destruct (decide (String.length (pretty x) = String.length (pretty y))) as [Hsame | Hdiff].
  - rewrite Hsame in Heq. apply app_inv_head in Heq.
    apply (inj pretty).
    rewrite <- (string_of_list_ascii_of_string (pretty x)),
            <- (string_of_list_ascii_of_string (pretty y)). by rewrite Heq.
  - assert ((String.length (pretty x) = 1 ∧ String.length (pretty y) = 2)
            ∨ (String.length (pretty x) = 2 ∧ String.length (pretty y) = 1))%nat
      as [[H1 H2] | [H1 H2]].
    { destruct (Nat.max_spec 2 (String.length (pretty x))) as [[? Hmx] | [? Hmx]],
               (Nat.max_spec 2 (String.length (pretty y))) as [[? Hmy] | [? Hmy]];
        rewrite Hmx, Hmy in Hlen; lia. }
    + rewrite H1, H2 in Heq. cbn in Heq. destruct (Hmixed x y Hx Hy H1 H2 Heq).
    + rewrite H1, H2 in Heq. cbn in Heq. symmetry in Heq.
      destruct (Hmixed y x Hy Hx H2 H1 Heq).
Qed.

(** Digits, then a character that is no digit: the text splits one way. *)
Lemma digits_split (d1 d2 r1 r2 : list ascii) (c : ascii) :
  Forall (λ c, digit c = true) d1 → Forall (λ c, digit c = true) d2 →
  digit c = false →
  d1 ++ c :: r1 = d2 ++ c :: r2 → d1 = d2 ∧ r1 = r2.
Proof.
  intros H1. revert d2. induction H1 as [|a d1 Ha _ IH]; intros d2 H2 Hc Heq.
  - destruct H2 as [|b d2 Hb _]; [by simplify_eq/= |].
    cbn in Heq. injection Heq as -> _. congruence.
  - destruct H2 as [|b d2 Hb H2].
    + cbn in Heq. injection Heq as -> _. congruence.
    + cbn in Heq. injection Heq as -> Heq.
      destruct (IH d2 H2 Hc Heq) as [-> ->]. done.
Qed.

Lemma duration_parts_spec (ms : Z) :
  let '(h, m, s) := duration_parts ms in
  0 ≤ h ∧ 0 ≤ m < 60 ∧ 0 ≤ s < 60 ∧
  3600 * h + 60 * m + s = Z.max 0 ms `div` 1000.
Proof.
  unfold duration_parts. set (t := Z.max 0 ms).
  assert (0 ≤ t) as Ht by lia.
  rewrite !Z.rem_mod_nonneg by lia.
  pose proof (Z.div_mod t 3600000 ltac:(lia)) as E1.
  pose proof (Z.mod_pos_bound t 3600000 ltac:(lia)) as B1.
  pose proof (Z.div_mod (t `mod` 3600000) 60000 ltac:(lia)) as E2.
  pose proof (Z.mod_pos_bound (t `mod` 3600000) 60000 ltac:(lia)) as B2.
  set (h := t `div` 3600000) in *. set (r1 := t `mod` 3600000) in *.
  set (m := r1 `div` 60000) in *. set (r2 := r1 `mod` 60000) in *.
  assert (t `mod` 60000 = r2) as ->.
  { symmetry. apply (Z.mod_unique t 60000 (60 * h + m)); lia. }
  pose proof (Z.div_mod r2 1000 ltac:(lia)) as E3.
  pose proof (Z.mod_pos_bound r2 1000 ltac:(lia)) as B3.
  set (s := r2 `div` 1000) in *. set (r3 := r2 `mod` 1000) in *.
  split_and!; try lia.
  apply (Z.div_unique t 1000 (3600 * h + 60 * m + s) r3); lia.
Qed.

Lemma pad2_small (n : Z) : 0 ≤ n < 100 → String.length (pad2 n) = 2%nat.
Proof.
  intros Hn.
  assert (Forall (λ n, String.length (pad2 n) = 2%nat) (seqZ 0 100)) as Hall
    by (apply (bool_decide_unpack _); vm_compute; exact I).
  rewrite Forall_forall in Hall. apply Hall. apply elem_of_seqZ. lia.
Qed.

Lemma pad2_large (n : Z) : 100 ≤ n → (3 ≤ String.length (pad2 n))%nat.
Proof.
  intros Hn. rewrite pad2_length.
  destruct n as [|p|p]; [lia | | lia].
  unfold pretty, pretty_Z, pretty, pretty_positive, pretty, pretty_N.
  case_decide; [done |].
  assert (0 < (N.pos p `div` 10) `div` 10)%N as H100.
  { apply N.div_str_pos. split; [lia |].
    apply N.div_le_lower_bound; lia. }
  assert (0 < N.pos p `div` 10)%N as H10.
  { apply N.div_str_pos. lia. }
  rewrite pretty_N_go_step by lia.
  rewrite pretty_N_go_step by done.
  rewrite pretty_N_go_step by done.
  etrans; [| apply Nat.le_max_r].
  etrans; [| apply pretty_N_go_length]. cbn. lia.
Qed.

Lemma list_ascii_inj (a b : string) :
  list_ascii_of_string a = list_ascii_of_string b → a = b.
Proof.
  intros Heq. rewrite <- (string_of_list_ascii_of_string a),
                      <- (string_of_list_ascii_of_string b). by rewrite Heq.
Qed.

Lemma fmtDuration_list (ms : Z) :
  list_ascii_of_string (fmtDuration ms)
  = let '(h, m, s) := duration_parts ms in
    list_ascii_of_string (pad2 h)
    ++ "h"%char :: " "%char :: list_ascii_of_string (pad2 m)
    ++ "m"%char :: " "%char :: list_ascii_of_string (pad2 s) ++ ["s"%char].
Proof.
  unfold fmtDuration. destruct (duration_parts ms) as [[h m] s].
  by rewrite !list_ascii_app.
Qed.

(** X3. The text of a duration shows its whole seconds (none for a
    negative duration) as hours, minutes below 60 and seconds below 60;
    minutes and seconds take two characters each, hours at least two. *)
Theorem fmtDuration_fields (ms : Z) :
  ∃ h m s,
    fmtDuration ms = pad2 h +:+ "h " +:+ pad2 m +:+ "m " +:+ pad2 s +:+ "s" ∧
    0 ≤ h ∧ 0 ≤ m < 60 ∧ 0 ≤ s < 60 ∧
    3600 * h + 60 * m + s = Z.max 0 ms `div` 1000 ∧
    (2 ≤ String.length (pad2 h))%nat ∧
    String.length (pad2 m) = 2%nat ∧ String.length (pad2 s) = 2%nat.
Proof.
  pose proof (duration_parts_spec ms) as Hspec. unfold fmtDuration.
  destruct (duration_parts ms) as [[h m] s]. destruct Hspec as (Hh & Hm & Hs & Hsum).
  exists h, m, s. split_and!; try done; try lia.
  - rewrite pad2_length. lia.
  - apply pad2_small. lia.
  - apply pad2_small. lia.
Qed.

(** X4. Two durations have the same text exactly when they have the same
    number of whole seconds, a negative duration counting as none. *)
Theorem fmtDuration_same_text (a b : Z) :
  fmtDuration a = fmtDuration b ↔ Z.max 0 a `div` 1000 = Z.max 0 b `div` 1000.
Proof.
  pose proof (duration_parts_spec a) as Ha. pose proof (duration_parts_spec b) as Hb.
  split.
  - intros Heq%(f_equal list_ascii_of_string). rewrite !fmtDuration_list in Heq.
    destruct (duration_parts a) as [[h1 m1] s1], (duration_parts b) as [[h2 m2] s2].
    destruct Ha as (Hh1 & Hm1 & Hs1 & <-), Hb as (Hh2 & Hm2 & Hs2 & <-).
    apply digits_split in Heq as [Hh Heq]; [| by apply pad2_digits..| done].
    injection Heq as Heq.
    apply digits_split in Heq as [Hm Heq]; [| apply pad2_digits; lia..| done].
    injection Heq as Heq.
    apply digits_split in Heq as [Hs _]; [| apply pad2_digits; lia..| done].
    apply list_ascii_inj, pad2_inj in Hh, Hm, Hs; lia.
  - intros Hsec. unfold fmtDuration.
    destruct (duration_parts a) as [[h1 m1] s1], (duration_parts b) as [[h2 m2] s2].
    destruct Ha as (Hh1 & Hm1 & Hs1 & Ha), Hb as (Hh2 & Hm2 & Hs2 & Hb).
    assert (h1 = h2 ∧ m1 = m2 ∧ s1 = s2) as (-> & -> & ->) by lia. done.
Qed.

(** ** Figures of the analytics page: properties *)

Lemma foldl_durations (hs : list HistoryRecord.t) (a : Z) :
  foldl (λ sum h, sum + HistoryRecord.durationMs h) a hs = a + durations hs.
Proof.
  revert a. induction hs as [|h hs IH]; intros a; cbn [foldl durations foldr].
  - lia.
  - rewrite IH. fold (durations hs). lia.
Qed.

Lemma durations_bounds (hs : list HistoryRecord.t) (lo hi : Z) :
  Forall (λ h, lo ≤ HistoryRecord.durationMs h ≤ hi) hs →
  lo * Z.of_nat (length hs) ≤ durations hs ≤ hi * Z.of_nat (length hs).
Proof.
  induction 1 as [|h hs Hh _ IH]; [cbn; lia |].
  cbn [durations foldr length]. fold (durations hs). lia.
Qed.

(** X5. The mean duration of the analytics page is 0 for an empty history
    and otherwise the sum of the durations divided by their number,
    rounded down; it lies between the shortest and the longest duration. *)
Theorem avgDuration_mean (tz now : Z) (st : State) :
  let avg := avgDuration (analytics_kpis tz now st) in
  let n := Z.of_nat (length (history st)) in
  (history st = [] → avg = 0) ∧
  (history st ≠ [] →
   avg * n ≤ durations (history st) < (avg + 1) * n ∧
   ∀ lo hi, Forall (λ h, lo ≤ HistoryRecord.durationMs h ≤ hi) (history st) →
            lo ≤ avg ≤ hi).
Proof.
  cbn [analytics_kpis avgDuration]. split.
  - by intros ->.
  - intros Hne. destruct (history st) as [|h hs] eqn:Hh; [done |].
    cbn [length Nat.eqb negb]. rewrite foldl_durations, Z.add_0_l.
    set (n := Z.of_nat (S (length hs))). assert (0 < n) as Hn by lia.
    pose proof (Z.div_mod (durations (h :: hs)) n ltac:(lia)) as Hdm.
    pose proof (Z.mod_pos_bound (durations (h :: hs)) n Hn) as Hm.
    split; [nia |]. intros lo hi Hall.
    pose proof (durations_bounds _ lo hi Hall) as Hb. cbn [length] in Hb. fold n in Hb.
    split.
    + apply Z.div_le_lower_bound; lia.
    + apply Z.div_le_upper_bound; lia.
Qed.

Lemma avgDuration_mean_witness :
  history (STATE demo_removed) ≠ [] ∧
  let avg := avgDuration (analytics_kpis 0 1861000 (STATE demo_removed)) in
  let n := Z.of_nat (length (history (STATE demo_removed))) in
  avg * n ≤ durations (history (STATE demo_removed)) < (avg + 1) * n.
Proof.
  assert (Hne : history (STATE demo_removed) ≠ []) by (vm_compute; discriminate).
  split; [exact Hne |].
  exact (proj1 (proj2 (avgDuration_mean 0 1861000 (STATE demo_removed)) Hne)).
Defined.







Lemma bump_car c k : car (bump c k) = car c + (if decide (k = "car"%string) then 1 else 0).
Proof. unfold bump. repeat case_decide; simplify_eq; cbn; lia. Qed.

Lemma bump_bike c k : bike (bump c k) = bike c + (if decide (k = "bike"%string) then 1 else 0).
Proof. unfold bump. repeat case_decide; simplify_eq; cbn; lia. Qed.

Lemma bump_truck c k :
  truck (bump c k) = truck c + (if decide (k = "truck"%string) then 1 else 0).
Proof. unfold bump. repeat case_decide; simplify_eq; cbn; lia. Qed.

Section one_counter.
Context (counter : counts → Z) (key : string).
Context (counter_bump : ∀ c k, counter (bump c k) = counter c + (if decide (k = key) then 1 else 0)).

Lemma foldl_bump_history c (hs : list HistoryRecord.t) :
  counter (foldl (λ c h, bump c (HistoryRecord.type h)) c hs)
  = counter c + Z.of_nat (length (filter (λ h, HistoryRecord.type h = key) hs)).
Proof.
  revert c. induction hs as [|h hs IH]; intros c; [cbn; lia |].
  cbn [foldl]. rewrite IH, counter_bump, filter_cons.
  case_decide; cbn [length]; lia.
Qed.

Lemma count_vehicles_counter c c' (l : list Slot.t) :
  count_vehicles c l = Some c' →
  counter c'
  = counter c
    + Z.of_nat (length (filter (λ s, Vehicle.type <$> Slot.vehicle s = Some key) l)).
Proof.
  revert c. induction l as [|s l IH]; intros c Hc; [cbn in *; simplify_eq; lia |].
  cbn [count_vehicles] in Hc. destruct (Slot.vehicle s) as [v|] eqn:Hv; [| done].
  rewrite (IH _ Hc), counter_bump, filter_cons, Hv. cbn [fmap option_fmap option_map].
  destruct (decide (Vehicle.type v = key)) as [Hk|Hk].
  - rewrite decide_True by (by rewrite Hk). cbn [length]. lia.
  - rewrite decide_False by (intros [=]; done). lia.
Qed.

Lemma typeCounts_counter st c :
  typeCounts st = Some c → counter (mkCounts 0 0 0) = 0 → counter c = tally key st.
Proof.
  unfold typeCounts, tally. intros Hc H0.
  rewrite (count_vehicles_counter _ _ _ Hc), foldl_bump_history, H0.
  rewrite list_filter_filter. do 3 f_equal.
  apply list_filter_iff. intros s. tauto.
Qed.
End one_counter.

Lemma count_vehicles_None c (l : list Slot.t) :
  count_vehicles c l = None ↔ ∃ s, s ∈ l ∧ Slot.vehicle s = None.
Proof.
  revert c. induction l as [|s l IH]; intros c; cbn [count_vehicles].
  - split; [done | by intros (s & ?%elem_of_nil & _)].
  - destruct (Slot.vehicle s) as [v|] eqn:Hv.
    + rewrite IH. split.
      * intros (s' & Hs' & Hn). exists s'. split; [by right | done].
      * intros (s' & [-> | Hs']%elem_of_cons & Hn); [congruence | eauto].
    + split; [| done]. intros _. exists s. split; [left | done].
Qed.

Lemma renderAnalytics_forEach (l : list Slot.t) c w :
  forEach (λ s : Slot.t,
    match Slot.vehicle s with None => raise TypeError | Some _ => mret () end) l w
  = match count_vehicles c l with Some _ => Ret () w | None => Raise TypeError w end.
Proof.
  revert c. induction l as [|s l IH]; intros c; [done |].
  cbn [forEach count_vehicles]. unfold mbind, M_bind.
  destruct (Slot.vehicle s) as [v|]; [| done]. cbn. apply IH.
Qed.

(** X8. [typeCounts] fails exactly when some occupied slot has no vehicle,
    and then [renderAnalytics] ends by that exception; otherwise each of
    its three counters is the number of records of that category plus the
    number of parked vehicles of that category. *)
Theorem typeCounts_tally (st : State) :
  (typeCounts st = None ↔
   ∃ s, s ∈ slots st ∧ Slot.occupied s = true ∧ Slot.vehicle s = None) ∧
  (∀ c, typeCounts st = Some c →
        car c = tally "car" st ∧ bike c = tally "bike" st ∧ truck c = tally "truck" st) ∧
  (∀ ls sh,
     renderAnalytics (mkWorld st ls sh)
     = match typeCounts st with
       | Some _ => Ret () (mkWorld st ls sh)
       | None => Raise TypeError (mkWorld st ls sh)
       end).
Proof.
  split_and!.
  - unfold typeCounts. rewrite count_vehicles_None. split.
    + intros (s & [Hocc Hs]%list_elem_of_filter & Hv). eauto.
    + intros (s & Hs & Hocc & Hv). exists s. split; [| done].
      by apply list_elem_of_filter.
  - intros c Hc. split_and!.
    + by apply (typeCounts_counter car "car" bump_car).
    + by apply (typeCounts_counter bike "bike" bump_bike).
    + by apply (typeCounts_counter truck "truck" bump_truck).
  - intros ls sh. unfold renderAnalytics, typeCounts. run.
    apply renderAnalytics_forEach.
Qed.

Lemma typeCounts_tally_witness :
  typeCounts (STATE demo_parked) = Some (mkCounts 1 0 0) ∧
  1 = tally "car" (STATE demo_parked) ∧
  0 = tally "bike" (STATE demo_parked) ∧
  0 = tally "truck" (STATE demo_parked).
Proof.
  assert (Hc : typeCounts (STATE demo_parked) = Some (mkCounts 1 0 0)) by reflexivity.
  split; [exact Hc |].
  exact (proj1 (proj2 (typeCounts_tally (STATE demo_parked))) _ Hc).
Defined.

(** ** Runs: what the store and [STATE] share *)

Lemma initSlots_frame st :
  history (initSlots st) = history st ∧ config (initSlots st) = config st ∧
  theme (initSlots st) = theme st ∧ timers (initSlots st) = timers st.
Proof.
  destruct (slots st) as [|s ss] eqn:Hs.
  - by rewrite initSlots_empty.
  - rewrite initSlots_nonempty; [done | by rewrite Hs].
Qed.

Lemma computeFee_config st st' ms : config st = config st' → computeFee st ms = computeFee st' ms.
Proof. unfold computeFee. by intros ->. Qed.

(** Loading the page in a world whose store agrees with [STATE]. *)
Lemma page_load_synced cfg path w :
  world_ok cfg w → synced cfg w →
  let keeps w' :=
    slots (STATE w') = slots (STATE w) ∧ history (STATE w') = history (STATE w) ∧
    config (STATE w') = cfg ∧ localStorage w' = localStorage w in
  ends (page_load cfg path) w (λ _, keeps) keeps.
Proof.
  intros [(_ & Hkeys & _) _] Hsync keeps. unfold ends, page_load, boot. run.
  unfold synced in Hsync. destruct (localStorage w) as [t|] eqn:Hls.
  - destruct Hsync as (st & -> & Hss & Hhs & Hcfg). rewrite load_snapshot.
    cbn [STATE localStorage shown].
    set (st1 := mkState _ _ _ _ _).
    assert (slots (initSlots st1) = slots (STATE w)) as Hs1.
    { destruct (decide (slots st = [])) as [Hnil | Hne].
      - rewrite initSlots_registry_of by done. cbn [st1 config]. rewrite Hcfg.
        rewrite <- Hss, Hnil in Hkeys. symmetry in Hkeys. apply fmap_nil_inv in Hkeys.
        by rewrite Hkeys, <- Hss.
      - by rewrite initSlots_nonempty. }
    destruct (initSlots_frame st1) as (Hh1 & Hc1 & _).
    nav; unfold keeps; cbn [STATE localStorage slots history config set_timers];
      rewrite ?Hls; split_and!;
      (done || congruence
       || (rewrite ?Hh1, ?Hc1; unfold st1; cbn [history config]; congruence)).
  - destruct Hsync as [Hss Hhs]. rewrite load_nothing by done.
    cbn [STATE localStorage shown].
    pose proof (initSlots_registry_of (STATE0 cfg) eq_refl) as Hs1.
    destruct (initSlots_frame (STATE0 cfg)) as (Hh1 & Hc1 & _).
    change (config (STATE0 cfg)) with cfg in *.
    change (history (STATE0 cfg)) with (@nil HistoryRecord.t) in *.
    nav; unfold keeps; cbn [STATE localStorage slots history config set_timers];
      rewrite ?Hls; split_and!; (done || congruence).
Qed.

(** What a reset leaves. *)
Lemma resetData_outcome path w :
  let cleared w' :=
    slots (STATE w') = registry (config (STATE w)) ∧ history (STATE w') = [] ∧
    config (STATE w') = config (STATE w) ∧ theme (STATE w') = theme (STATE w) ∧
    localStorage w' = None in
  ends (resetData path) w (λ _, cleared) cleared.
Proof.
  intros cleared. unfold ends, resetData. run.
  match goal with |- context [initSlots ?st] =>
    pose proof (initSlots_registry_of st eq_refl) as Hs1;
    destruct (initSlots_frame st) as (Hh1 & Hc1 & Ht1 & _)
  end.
  nav; unfold cleared; cbn [STATE localStorage slots history config theme set_timers];
    by rewrite Hs1, Hh1, Hc1, Ht1.
Qed.

Section data_of_a_run.
Context (allowed : World → event → Prop) (cfg : Config.t).
Context (P : list Slot.t → list HistoryRecord.t → Prop).
Context (P_first : P (registry cfg) []).
Context (P_entry : ∀ w number owner type now i s,
  world_ok cfg w → allowed w (EntrySubmit number owner type now) →
  P (slots (STATE w)) (history (STATE w)) →
  nearestEmptySlot type (STATE w) = Some (i, s) →
  P (<[i := parked s number owner type now]> (slots (STATE w))) (history (STATE w))).
Context (P_remove : ∀ w slotId now i s v,
  world_ok cfg w → allowed w (RemoveClick slotId now true) →
  P (slots (STATE w)) (history (STATE w)) →
  list_find (λ x, Slot.id x = slotId) (slots (STATE w)) = Some (i, s) →
  Slot.occupied s = true → Slot.vehicle s = Some v →
  P (<[i := vacated s]> (slots (STATE w))) (record_of (STATE w) s v now :: history (STATE w))).

(** A property of slots and history that the first run has and that
    entries and removals keep holds in every world of the run, where the
    store agrees with [STATE]. *)
Lemma reachable_when_data w :
  reachable_when allowed cfg w →
  world_ok cfg w ∧ synced cfg w ∧ P (slots (STATE w)) (history (STATE w)).
Proof.
  induction 1 as [path w Hw | w e w' Hreach (Hok & Hsync & HP) Hallowed Hw].
  - assert (world_ok cfg w) as Hok
      by (eapply outcome_ends; [| exact Hw]; by apply boot_ok).
    split; [done |].
    assert (localStorage w = None ∧ slots (STATE w) = registry cfg ∧ history (STATE w) = [])
      as (Hls & Hss & Hhs).
    { unfold after, outcome in Hw. cbn [handle] in Hw.
      unfold page_load, boot in Hw. revert Hw. run.
      rewrite load_nothing by done. cbn [STATE localStorage shown].
      pose proof (initSlots_registry_of (STATE0 cfg) eq_refl) as Hs1.
      destruct (initSlots_frame (STATE0 cfg)) as (Hh1 & _).
      nav; intros [= <-]; cbn [STATE localStorage slots history set_timers];
        by rewrite Hs1, Hh1. }
    split; [unfold synced; by rewrite Hls | by rewrite Hss, Hhs].
  - assert (world_ok cfg w') as Hok'
      by (eapply outcome_ends; [| exact Hw]; by apply handle_ok).
    split; [done |]. unfold after in Hw.
    destruct e as [path | path | number owner type now | slotId now confirmed | path | path];
      cbn [handle] in Hw.
    + destruct (outcome_ends _ _ _ _ (page_load_synced cfg path w Hok Hsync) Hw)
        as (Hss & Hhs & Hcfg & Hls).
      split; [| by rewrite Hss, Hhs].
      unfold synced in *. rewrite Hls. destruct (localStorage w); [| by rewrite Hss, Hhs].
      destruct Hsync as (st & -> & ? & ? & ?). exists st. by rewrite Hss, Hhs.
    + destruct (outcome_ends _ _ _ _ (navigate_timers path w) Hw) as [ts ->].
      done.
    + destruct (entry_submit_outcome number owner type now w) as (w1 & Hw1 & Hcase).
      rewrite Hw in Hw1. injection Hw1 as <-.
      destruct (nearestEmptySlot type (STATE w)) as [[i s]|] eqn:Hn.
      * destruct Hcase as (Hss & Hhs & Hcfg & Hls). split.
        -- unfold synced. rewrite Hls. exists (STATE w'). split_and!; try done.
           by destruct Hok' as [(_ & _ & ? & _) _].
        -- rewrite Hss, Hhs. by eapply P_entry.
      * destruct Hcase as [Hst Hls]. unfold synced. by rewrite Hls, Hst.
    + destruct (removeVehicle_outcome slotId now confirmed w) as (w1 & Hw1 & Hcase).
      rewrite Hw in Hw1. injection Hw1 as <-.
      assert (untouched w w' → synced cfg w' ∧ P (slots (STATE w')) (history (STATE w')))
        as Hsame.
      { intros [Hst Hls]. unfold synced. by rewrite Hls, Hst. }
      destruct (list_find _ _) as [[i s]|] eqn:Hfind; [| by apply Hsame].
      destruct (Slot.vehicle s) as [v|] eqn:Hveh; [| by apply Hsame].
      destruct (Slot.occupied s) eqn:Hocc; [| by apply Hsame].
      destruct confirmed; [| by apply Hsame]. cbn [andb] in Hcase.
      destruct Hcase as (Hss & Hhs & Hcfg & _ & Hls). split.
      * unfold synced. rewrite Hls. exists (STATE w'). split_and!; try done.
        by destruct Hok' as [(_ & _ & ? & _) _].
      * rewrite Hss, Hhs. by eapply P_remove.
    + destruct (outcome_ends _ _ _ _ (resetData_outcome path w) Hw)
        as (Hss & Hhs & Hcfg & _ & Hls).
      assert (config (STATE w) = cfg) as Hc by by destruct Hok as [(_ & _ & ? & _) _].
      rewrite Hc in Hss. split; [unfold synced; by rewrite Hls | by rewrite Hss, Hhs].
    + unfold themeToggle in Hw. revert Hw. unfold outcome. run. case_decide.
      * intros [= <-]. done.
      * intros Hw.
        destruct (outcome_ends _ _ _ _ (page_load_synced cfg path w Hok Hsync) Hw)
          as (Hss & Hhs & Hcfg & Hls).
        split; [| by rewrite Hss, Hhs].
        unfold synced in *. rewrite Hls. destruct (localStorage w); [| by rewrite Hss, Hhs].
        destruct Hsync as (st & -> & ? & ? & ?). exists st. by rewrite Hss, Hhs.
Qed.
End data_of_a_run.

Lemma reachable_when_reachable allowed cfg w :
  reachable_when allowed cfg w → reachable cfg w.
Proof.
  induction 1 as [path w Hw | w e w' _ IH _ Hw].
  - by eapply reach_open.
  - by eapply reach_next.
Qed.

Lemma reachable_always cfg w : reachable cfg w → reachable_when (λ _ _, True) cfg w.
Proof.
  induction 1 as [path w Hw | w e w' _ IH Hw].
  - by eapply when_open.
  - by eapply when_next.
Qed.

Lemma reachable_synced cfg w : reachable cfg w → world_ok cfg w ∧ synced cfg w.
Proof.
  intros Hr%reachable_always.
  destruct (reachable_when_data _ cfg (λ _ _, True) I (λ _ _ _ _ _ _ _ _ _ _ _, I)
              (λ _ _ _ _ _ _ _ _ _ _ _ _, I) w Hr) as (? & ? & _).
  done.
Qed.

(** ** Runs: what holds of the data *)

Lemma world_ok_ids cfg w :
  world_ok cfg w →
  Slot.id <$> slots (STATE w) = seqZ 1 (Z.of_nat (Z.to_nat (Config.totalSlots cfg))).
Proof.
  intros [(_ & Hkeys & _) _]. rewrite <- registry_ids.
  change Slot.id with (fst ∘ slot_key). by rewrite !list_fmap_compose, Hkeys.
Qed.

Lemma world_ok_id_range cfg w i s :
  world_ok cfg w → slots (STATE w) !! i = Some s →
  Slot.id s = 1 + Z.of_nat i ∧ 1 ≤ Slot.id s ≤ Config.totalSlots cfg.
Proof.
  intros Hok Hi.
  assert ((Slot.id <$> slots (STATE w)) !! i = Some (Slot.id s)) as Hid
    by by rewrite list_lookup_fmap, Hi.
  rewrite (world_ok_ids cfg w Hok) in Hid. apply lookup_seqZ in Hid. lia.
Qed.

Lemma world_ok_session cfg w i s :
  world_ok cfg w → slots (STATE w) !! i = Some s → Slot.occupied s = true →
  ∃ v t, Slot.vehicle s = Some v ∧ Slot.entryTime s = Some t.
Proof.
  intros [(Hall & _) _] Hi Hocc.
  rewrite Forall_forall in Hall.
  destruct (Hall s) as [Hv Ht]; [apply list_elem_of_lookup; eauto |].
  rewrite Hocc in Hv, Ht.
  destruct (Slot.vehicle s), (Slot.entryTime s); try done. eauto.
Qed.

Lemma demo_world_when allowed : reachable_when allowed small_config demo_world.
Proof. by apply (when_open _ _ "/"%string). Qed.

(** X9. Reloading the page in a world it has reached gives back the same
    slots and the same history, and leaves the stored snapshot as it is. *)
Theorem reload_keeps_data (cfg : Config.t) (path : string) (w : World) :
  reachable cfg w →
  ∃ w', after cfg (PageLoad path) w = Some w' ∧
        slots (STATE w') = slots (STATE w) ∧
        history (STATE w') = history (STATE w) ∧
        config (STATE w') = config (STATE w) ∧
        localStorage w' = localStorage w.
Proof.
  intros [Hok Hsync]%reachable_synced.
  destruct (ends_outcome _ _ _ (page_load_synced cfg path w Hok Hsync))
    as (w' & Hw' & Hss & Hhs & Hcfg & Hls).
  exists w'. split_and!; try done.
  destruct Hok as [(_ & _ & Hc & _) _]. congruence.
Qed.

Lemma reload_keeps_data_witness :
  reachable small_config demo_parked ∧
  ∃ w', after small_config (PageLoad "/dashboard") demo_parked = Some w' ∧
        slots (STATE w') = slots (STATE demo_parked) ∧
        history (STATE w') = history (STATE demo_parked) ∧
        config (STATE w') = config (STATE demo_parked) ∧
        localStorage w' = localStorage demo_parked.
Proof.
  split; [exact demo_parked_reachable |].
  exact (reload_keeps_data small_config "/dashboard" demo_parked demo_parked_reachable).
Defined.

(** X10. In every world the page reaches, each record of the history has
    an entry time, its duration is its exit time less its entry time, its
    fee is the fee of that duration, and its slot id is one of the
    registry. *)
Theorem ledger_records_sound (cfg : Config.t) (w : World) :
  reachable cfg w → Forall (record_sound cfg) (history (STATE w)).
Proof.
  intros Hr%reachable_always.
  refine (proj2 (proj2 (reachable_when_data _ cfg (λ _ hs, Forall (record_sound cfg) hs)
                          _ _ _ w Hr))).
  - constructor.
  - intros. done.
  - intros w0 slotId now i s v Hok _ Hall Hfind Hocc Hveh.
    apply list_find_Some in Hfind as (Hi & _ & _).
    constructor; [| done].
    destruct (world_ok_session cfg w0 i s Hok Hi Hocc) as (v' & t & _ & Ht).
    destruct (world_ok_id_range cfg w0 i s Hok Hi) as [_ Hrange].
    exists t. unfold record_of. cbn. rewrite Ht. cbn. split_and!; try done; try lia.
    apply computeFee_config. by destruct Hok as [(_ & _ & ? & _) _].
Qed.

Lemma demo_removed_reachable : reachable small_config demo_removed.
Proof.
  apply (reach_next _ demo_parked (RemoveClick 1 1861000 true)); [| reflexivity].
  exact demo_parked_reachable.
Qed.

Lemma ledger_records_sound_witness :
  reachable small_config demo_removed ∧
  history (STATE demo_removed)
  = [HistoryRecord.mk "TN38AB1234" "Priya" "car" 1 (Some 1000) 1861000 1860000 70] ∧
  Forall (record_sound small_config) (history (STATE demo_removed)).
Proof.
  split; [exact demo_removed_reachable |]. split; [reflexivity |].
  exact (ledger_records_sound small_config demo_removed demo_removed_reachable).
Defined.

(** X11. When the clock never runs backwards, the history is in the order
    of the exits, the latest first, and no record has a negative duration
    or an exit before its entry. *)
Theorem history_latest_first (cfg : Config.t) (w : World) :
  reachable_when clock_ahead cfg w →
  StronglySorted (λ h1 h2, HistoryRecord.exitTime h2 ≤ HistoryRecord.exitTime h1)
                 (history (STATE w)) ∧
  Forall (λ h, 0 ≤ HistoryRecord.durationMs h ∧
               ∃ t, HistoryRecord.entryTime h = Some t ∧ t ≤ HistoryRecord.exitTime h)
         (history (STATE w)).
Proof.
  intros Hr.
  refine (proj2 (proj2 (reachable_when_data _ cfg
    (λ _ hs, StronglySorted (λ h1 h2, HistoryRecord.exitTime h2 ≤ HistoryRecord.exitTime h1) hs
             ∧ Forall (λ h, 0 ≤ HistoryRecord.durationMs h ∧
                            ∃ t, HistoryRecord.entryTime h = Some t
                                 ∧ t ≤ HistoryRecord.exitTime h) hs)
    _ _ _ w Hr))).
  - split; constructor.
  - intros. done.
  - intros w0 slotId now i s v Hok [Hslots Hhist] [Hsorted Hall] Hfind Hocc Hveh.
    apply list_find_Some in Hfind as (Hi & _ & _).
    destruct (world_ok_session cfg w0 i s Hok Hi Hocc) as (v' & t & _ & Ht).
    assert (t ≤ now) as Hle.
    { apply (Hslots s t); [| done]. apply list_elem_of_lookup. eauto. }
    split.
    + constructor; [done |]. apply Forall_forall. intros h Hh. cbn. by apply Hhist.
    + constructor; [| done]. unfold record_of. cbn. rewrite Ht. cbn.
      split; [lia |]. exists t. by split.
Qed.

Lemma demo_removed_clock : reachable_when clock_ahead small_config demo_removed.
Proof.
  apply (when_next _ _ demo_parked (RemoveClick 1 1861000 true)); [| | reflexivity].
  - apply (when_next _ _ demo_world (EntrySubmit "TN38AB1234" "Priya" "car" 1000));
      [apply demo_world_when | | reflexivity].
    split.
    + intros s t Hs Ht.
      assert (slots (STATE demo_world)
              = [Slot.mk 1 (Some "car"%string) false None None;
                 Slot.mk 2 (Some "car"%string) false None None;
                 Slot.mk 3 (Some "car"%string) false None None]) as Hl by reflexivity.
      rewrite Hl, !elem_of_cons, elem_of_nil in Hs.
      by destruct Hs as [-> | [-> | [-> | []]]].
    + intros h Hh. by apply elem_of_nil in Hh.
  - split.
    + intros s t Hs Ht.
      assert (slots (STATE demo_parked)
              = [Slot.mk 1 (Some "car"%string) true
                   (Some (Vehicle.mk "TN38AB1234" "Priya" "car")) (Some 1000);
                 Slot.mk 2 (Some "car"%string) false None None;
                 Slot.mk 3 (Some "car"%string) false None None]) as Hl by reflexivity.
      rewrite Hl, !elem_of_cons, elem_of_nil in Hs.
      destruct Hs as [-> | [-> | [-> | []]]]; cbn in Ht; simplify_eq; lia.
    + intros h Hh. by apply elem_of_nil in Hh.
Qed.

Lemma history_latest_first_witness :
  reachable_when clock_ahead small_config demo_removed ∧
  StronglySorted (λ h1 h2, HistoryRecord.exitTime h2 ≤ HistoryRecord.exitTime h1)
                 (history (STATE demo_removed)) ∧
  Forall (λ h, 0 ≤ HistoryRecord.durationMs h ∧
               ∃ t, HistoryRecord.entryTime h = Some t ∧ t ≤ HistoryRecord.exitTime h)
         (history (STATE demo_removed)).
Proof.
  split; [exact demo_removed_clock |].
  exact (history_latest_first small_config demo_removed demo_removed_clock).
Defined.

(** ** Validation of the entry form: properties *)

Lemma rests_spec r s rest :
  rest ∈ rests r s ↔ ∃ pre, s = pre ++ rest ∧ matches r pre.
Proof.
  revert s rest. induction r as [|p|r1 IH1 r2 IH2|r IH]; intros s rest; cbn [rests].
  - rewrite list_elem_of_singleton. split.
    + intros ->. exists []. split; [done | constructor].
    + intros (pre & -> & Hm). by inversion Hm.
  - destruct s as [|c s].
    + split; [by intros ?%elem_of_nil |]. intros (pre & Heq & Hm).
      inversion Hm; subst. done.
    + destruct (p c) eqn:Hp.
      * rewrite list_elem_of_singleton. split.
        -- intros ->. exists [c]. split; [done | by constructor].
        -- intros (pre & Heq & Hm). inversion Hm; subst. by simplify_eq/=.
      * split; [by intros ?%elem_of_nil |]. intros (pre & Heq & Hm).
        inversion Hm; subst. simplify_eq/=. congruence.
  - rewrite list_elem_of_bind. split.
    + intros (mid & (pre2 & -> & Hm2)%IH2 & (pre1 & -> & Hm1)%IH1).
      exists (pre1 ++ pre2). split; [by rewrite app_assoc | by constructor].
    + intros (pre & -> & Hm). inversion Hm as [| |? ? l1 l2 Hm1 Hm2| |]; subst.
      exists (l2 ++ rest). split.
      * apply IH2. eauto.
      * apply IH1. exists l1. split; [by rewrite app_assoc | done].
  - rewrite elem_of_app, list_elem_of_singleton, IH. split.
    + intros [(pre & -> & Hm) | ->].
      * exists pre. split; [done | by constructor].
      * exists []. split; [done | constructor].
    + intros (pre & -> & Hm). inversion Hm; subst; [by right | left; eauto].
Qed.

Lemma regex_test_spec r s :
  regex_test r s = true ↔ matches r (list_ascii_of_string s).
Proof.
  unfold regex_test. rewrite bool_decide_eq_true, rests_spec. split.
  - intros (pre & Heq & Hm). rewrite app_nil_r in Heq. by subst.
  - intros Hm. exists (list_ascii_of_string s). by rewrite app_nil_r.
Qed.

Lemma matches_length r l : matches r l → (min_len r ≤ length l ≤ max_len r)%nat.
Proof.
  induction 1; cbn [min_len max_len length]; rewrite ?length_app; lia.
Qed.

Lemma matches_alphabet r l : matches r l → Forall (λ c, alphabet r c = true) l.
Proof.
  induction 1; cbn [alphabet].
  - constructor.
  - by repeat constructor.
  - apply Forall_app. split.
    + eapply Forall_impl; [done |]. cbn. intros c ->. done.
    + eapply Forall_impl; [done |]. cbn. intros c ->. by rewrite orb_true_r.
  - constructor.
  - done.
Qed.

Lemma entryForm_errors_entered number owner type :
  entryForm_errors number owner type = [] ↔ entered number owner type.
Proof.
  unfold entryForm_errors, entered.
  destruct (regex_test plate_regex number);
    destruct (Nat.ltb_spec (String.length owner) 2);
    case_bool_decide; cbn; split; try done; try (intros (? & ? & ?); done || lia).
Qed.

(** X12. The form lets an entry through exactly when the number matches
    the pattern of the handler, the owner has two characters or more and
    the type is car, bike or truck.  A number that matches has 8 to 13
    characters, each a capital letter, a digit or white space. *)
Theorem entryForm_accepts (number owner type : string) :
  (entryForm_errors number owner type = [] ↔
   matches plate_regex (list_ascii_of_string number) ∧
   (2 ≤ String.length owner)%nat ∧
   type ∈ ["car"; "bike"; "truck"]%string) ∧
  (matches plate_regex (list_ascii_of_string number) →
   (8 ≤ String.length number ≤ 13)%nat ∧
   Forall (λ c, upper c || digit c || space c = true) (list_ascii_of_string number)).
Proof.
  split.
  - rewrite entryForm_errors_entered. unfold entered. by rewrite regex_test_spec.
  - intros Hm. split.
    + rewrite <- list_ascii_length. exact (matches_length _ _ Hm).
    + eapply Forall_impl; [exact (matches_alphabet _ _ Hm) |].
      intros c Hc. cbn in Hc.
      destruct (upper c), (digit c), (space c); done.
Qed.

Lemma entryForm_accepts_witness :
  entryForm_errors "KA01AB1234" "Asha" "car" = [] ∧
  (8 ≤ String.length "KA01AB1234" ≤ 13)%nat.
Proof.
  assert (He : entryForm_errors "KA01AB1234" "Asha" "car" = []) by reflexivity.
  split; [exact He |].
  exact (proj1 (proj2 (entryForm_accepts "KA01AB1234" "Asha" "car")
                  (proj1 (proj1 (proj1 (entryForm_accepts "KA01AB1234" "Asha" "car")) He)))).
Defined.

(** The data of a run whose entries went through the form. *)
Lemma validated_data cfg w :
  reachable_when validated cfg w →
  world_ok cfg w ∧
  Forall (λ s, ∀ v, Slot.vehicle s = Some v →
               entered (Vehicle.number v) (Vehicle.owner v) (Vehicle.type v))
         (slots (STATE w)) ∧
  Forall (λ h, entered (HistoryRecord.vehicleNumber h) (HistoryRecord.owner h)
                       (HistoryRecord.type h))
         (history (STATE w)).
Proof.
  intros Hr.
  pose proof (reachable_when_data validated cfg
    (λ ss hs,
       Forall (λ s, ∀ v, Slot.vehicle s = Some v →
                    entered (Vehicle.number v) (Vehicle.owner v) (Vehicle.type v)) ss ∧
       Forall (λ h, entered (HistoryRecord.vehicleNumber h) (HistoryRecord.owner h)
                            (HistoryRecord.type h)) hs)) as Hdata.
  destruct (Hdata) with (w := w) as (Hok & _ & HP); [| | | done | done].
  - split; [| constructor]. rewrite registry_eq. apply Forall_fmap, Forall_forall.
    by intros i _ v.
  - intros w0 number owner type now i s _ Hvalid [Hss Hhs] _. split; [| done].
    apply Forall_insert; [done |]. intros v [= <-]. cbn.
    by apply entryForm_errors_entered.
  - intros w0 slotId now i s v _ _ [Hss Hhs] Hfind _ Hveh.
    apply list_find_Some in Hfind as (Hi & _ & _). split.
    + apply Forall_insert; [done |]. by intros v'.
    + constructor; [| done]. cbn. rewrite Forall_forall in Hss.
      apply (Hss s); [| done]. apply list_elem_of_lookup. eauto.
Qed.

(** X13. A submit with a field that fails its check changes nothing and
    names the failing fields; a submit that passes is the entry.  So in a
    run whose entries came through the form, every parked vehicle and
    every record carries a number that matches the pattern, an owner of
    two characters or more and a type among car, bike and truck. *)
Theorem entryForm_guards_data (cfg : Config.t) :
  (∀ number owner type now w,
     (entryForm_errors number owner type ≠ [] →
      entryForm_submit number owner type now w
      = Ret (entryForm_errors number owner type) w) ∧
     (entryForm_errors number owner type = [] →
      entryForm_submit number owner type now w
      = match entry_submit number owner type now w with
        | Ret _ w' => Ret [] w'
        | Raise e w' => Raise e w'
        | Untyped => Untyped
        end)) ∧
  (∀ w, reachable_when validated cfg w →
     Forall (λ s, ∀ v, Slot.vehicle s = Some v →
                  entered (Vehicle.number v) (Vehicle.owner v) (Vehicle.type v))
            (slots (STATE w)) ∧
     Forall (λ h, entered (HistoryRecord.vehicleNumber h) (HistoryRecord.owner h)
                          (HistoryRecord.type h))
            (history (STATE w))).
Proof.
  split.
  - intros number owner type now w. unfold entryForm_submit. split.
    + intros Hne. by rewrite bool_decide_eq_false_2.
    + intros Heq. rewrite bool_decide_eq_true_2 by done.
      unfold mbind, M_bind. by destruct (entry_submit number owner type now w).
  - intros w Hr. by destruct (validated_data cfg w Hr) as (_ & ? & ?).
Qed.

Lemma demo_removed_validated : reachable_when validated small_config demo_removed.
Proof.
  apply (when_next _ _ demo_parked (RemoveClick 1 1861000 true)); [| done | reflexivity].
  apply (when_next _ _ demo_world (EntrySubmit "TN38AB1234" "Priya" "car" 1000));
    [apply demo_world_when | reflexivity | reflexivity].
Qed.

Lemma entryForm_guards_data_witness :
  reachable_when validated small_config demo_removed ∧
  Forall (λ h, entered (HistoryRecord.vehicleNumber h) (HistoryRecord.owner h)
                       (HistoryRecord.type h))
         (history (STATE demo_removed)).
Proof.
  split; [exact demo_removed_validated |].
  destruct (entryForm_guards_data small_config) as [_ Hrun].
  exact (proj2 (Hrun demo_removed demo_removed_validated)).
Defined.

Lemma tally_three {A} (f : A → string) (l : list A) :
  Forall (λ x, f x ∈ ["car"; "bike"; "truck"]%string) l →
  (length (filter (λ x, f x = "car"%string) l)
   + length (filter (λ x, f x = "bike"%string) l)
   + length (filter (λ x, f x = "truck"%string) l) = length l)%nat.
Proof.
  induction 1 as [|x l Hx _ IH]; [done |].
  rewrite !filter_cons. cbn [length].
  rewrite !elem_of_cons, elem_of_nil in Hx.
  destruct Hx as [Hx | [Hx | [Hx | []]]]; rewrite Hx;
    repeat case_decide; try done; cbn [length]; lia.
Qed.

Lemma tally_three_slots (ss : list Slot.t) :
  Forall (λ s, Slot.occupied s = true →
               ∃ v, Slot.vehicle s = Some v
                    ∧ Vehicle.type v ∈ ["car"; "bike"; "truck"]%string) ss →
  (length (filter (λ s, Slot.occupied s = true
                        ∧ Vehicle.type <$> Slot.vehicle s = Some "car"%string) ss)
   + length (filter (λ s, Slot.occupied s = true
                          ∧ Vehicle.type <$> Slot.vehicle s = Some "bike"%string) ss)
   + length (filter (λ s, Slot.occupied s = true
                          ∧ Vehicle.type <$> Slot.vehicle s = Some "truck"%string) ss)
   = length (filter (λ s, Slot.occupied s = true) ss))%nat.
Proof.
  induction 1 as [|s ss Hs _ IH]; [done |].
  rewrite !filter_cons. destruct (Slot.occupied s) eqn:Hocc.
  - destruct (Hs eq_refl) as (v & Hv & Hty). rewrite Hv. cbn [fmap option_fmap option_map].
    rewrite !elem_of_cons, elem_of_nil in Hty.
    destruct Hty as [Hty | [Hty | [Hty | []]]]; rewrite Hty;
      repeat case_decide; try (exfalso; intuition congruence); cbn [length]; lia.
  - repeat case_decide; try (exfalso; intuition congruence). done.
Qed.

(** X14. In a run whose entries came through the form, [typeCounts] does
    not fail, and its three counters add up to the number of records plus
    the number of vehicles parked. *)
Theorem typeCounts_total (cfg : Config.t) (w : World) :
  reachable_when validated cfg w →
  ∃ c, typeCounts (STATE w) = Some c ∧
       car c + bike c + truck c
       = Z.of_nat (length (history (STATE w))) + Z.of_nat (parked_count (STATE w)).
Proof.
  intros (Hok & Hss & Hhs)%validated_data.
  assert (Forall (λ s, Slot.occupied s = true →
                       ∃ v, Slot.vehicle s = Some v
                            ∧ Vehicle.type v ∈ ["car"; "bike"; "truck"]%string)
                 (slots (STATE w))) as Hs3.
  { apply Forall_forall. intros s Hs Hocc.
    apply list_elem_of_lookup in Hs as [i Hi].
    destruct (world_ok_session cfg w i s Hok Hi Hocc) as (v & t & Hv & _).
    exists v. split; [done |].
    rewrite Forall_forall in Hss.
    destruct (Hss s) with (v := v) as (_ & _ & ?); [apply list_elem_of_lookup; eauto | done | done]. }
  assert (Forall (λ h, HistoryRecord.type h ∈ ["car"; "bike"; "truck"]%string)
                 (history (STATE w))) as Hh3
    by (eapply Forall_impl; [exact Hhs |]; by intros h (_ & _ & ?)).
  destruct (typeCounts (STATE w)) as [c|] eqn:Hc.
  - exists c. split; [done |].
    rewrite (typeCounts_counter car "car" bump_car _ _ Hc eq_refl),
            (typeCounts_counter bike "bike" bump_bike _ _ Hc eq_refl),
            (typeCounts_counter truck "truck" bump_truck _ _ Hc eq_refl).
    unfold tally, parked_count.
    pose proof (tally_three HistoryRecord.type _ Hh3) as Hsum1.
    pose proof (tally_three_slots _ Hs3) as Hsum2. lia.
  - exfalso. unfold typeCounts in Hc. apply count_vehicles_None in Hc
      as (s & [Hocc Hs]%list_elem_of_filter & Hv).
    rewrite Forall_forall in Hs3. destruct (Hs3 s Hs Hocc) as (v & Hv' & _). congruence.
Qed.

Lemma typeCounts_total_witness :
  reachable_when validated small_config demo_removed ∧
  ∃ c, typeCounts (STATE demo_removed) = Some c ∧
       car c + bike c + truck c
       = Z.of_nat (length (history (STATE demo_removed)))
         + Z.of_nat (parked_count (STATE demo_removed)).
Proof.
  split; [exact demo_removed_validated |].
  exact (typeCounts_total small_config demo_removed demo_removed_validated).
Defined.

(** ** Occupancy *)

Lemma occupied_insert (l : list Slot.t) i s s' :
  l !! i = Some s →
  Z.of_nat (length (filter (λ s, Slot.occupied s = true) (<[i := s']> l)))
  = Z.of_nat (length (filter (λ s, Slot.occupied s = true) l))
    + (if Slot.occupied s' then 1 else 0) - (if Slot.occupied s then 1 else 0).
Proof.
  revert i. induction l as [|x l IH]; intros i Hi; [done |].
  destruct i as [|i].
  - cbn in Hi. injection Hi as ->.
    change (<[0%nat := s']> (s :: l)) with (s' :: l). rewrite !filter_cons.
    destruct (Slot.occupied s), (Slot.occupied s'); repeat case_decide;
      try done; cbn [length]; lia.
  - cbn in Hi. change (<[S i := s']> (x :: l)) with (x :: <[i := s']> l).
    rewrite !filter_cons. specialize (IH i Hi).
    case_decide; cbn [length]; lia.
Qed.

Lemma parked_count_full st :
  (parked_count st ≤ length (slots st))%nat ∧
  (parked_count st = length (slots st) ↔ ∀ s, s ∈ slots st → ¬ free s).
Proof.
  unfold parked_count, free. induction (slots st) as [|x l [IHle IHeq]].
  - split; [done |]. split; [by intros _ s ?%elem_of_nil | done].
  - rewrite filter_cons. destruct (Slot.occupied x) eqn:Hx.
    + rewrite decide_True by done. cbn [length]. split; [lia |]. split.
      * intros Heq s [-> | Hs]%elem_of_cons; [congruence |].
        apply IHeq; [lia | done].
      * intros Hall. f_equal. apply IHeq. intros s Hs. apply Hall. by right.
    + rewrite decide_False by done. cbn [length]. split; [lia |]. split; [lia |].
      intros Hall. destruct (Hall x); [left | done].
Qed.

(** X15. The number of parked vehicles never exceeds the number of slots.
    An entry is turned away exactly when they are equal, and then changes
    nothing; otherwise it raises the number by one.  A removal that takes
    place lowers it by one. *)
Theorem parked_count_steps (w : World) :
  (parked_count (STATE w) ≤ length (slots (STATE w)))%nat ∧
  (∀ number owner type now, ∃ w',
     outcome (entry_submit number owner type now) w = Some w' ∧
     if decide (parked_count (STATE w) = length (slots (STATE w)))
     then STATE w' = STATE w ∧ localStorage w' = localStorage w ∧
          shown w' = shown w ++ [Toast NoEmptySlot "error"]
     else parked_count (STATE w') = S (parked_count (STATE w))) ∧
  (∀ slotId now i s v,
     list_find (λ x, Slot.id x = slotId) (slots (STATE w)) = Some (i, s) →
     Slot.occupied s = true → Slot.vehicle s = Some v →
     ∃ w', outcome (removeVehicle slotId now true) w = Some w' ∧
           S (parked_count (STATE w')) = parked_count (STATE w)).
Proof.
  destruct (parked_count_full (STATE w)) as [Hle Hfull]. split_and!; [done | |].
  - intros number owner type now.
    pose proof (nearestEmptySlot_spec type (STATE w)) as Hspec.
    destruct (nearestEmptySlot type (STATE w)) as [[i s]|] eqn:Hn.
    + destruct Hspec as (Hi & Hfree & _).
      eexists. unfold outcome. rewrite (entry_submit_parks _ _ _ _ _ _ _ Hn).
      split; [reflexivity |].
      rewrite decide_False.
      * unfold parked_count. cbn [STATE slots set_slots].
        pose proof (occupied_insert _ i s (parked s number owner type now) Hi) as Hins.
        unfold free in Hfree. rewrite Hfree in Hins. cbn in Hins. lia.
      * intros Heq. destruct (proj1 Hfull Heq s); [| done].
        apply list_elem_of_lookup. eauto.
    + eexists. unfold outcome. rewrite entry_submit_full by done.
      split; [reflexivity |]. rewrite decide_True; [done |]. by apply (proj2 Hfull).
  - intros slotId now i s v Hfind Hocc Hveh.
    destruct (ends_outcome _ _ _ (removeVehicle_confirmed _ now _ _ _ _ Hfind Hocc Hveh))
      as (w' & Hw' & Hss & _).
    exists w'. split; [done |].
    apply list_find_Some in Hfind as (Hi & _ & _).
    unfold parked_count. rewrite Hss.
    pose proof (occupied_insert _ i s (vacated s) Hi) as Hins.
    rewrite Hocc in Hins. cbn in Hins. lia.
Qed.

Lemma parked_count_steps_witness :
  ∃ s w',
    list_find (λ x, Slot.id x = 1) (slots (STATE demo_parked)) = Some (0%nat, s) ∧
    Slot.occupied s = true ∧
    outcome (removeVehicle 1 1861000 true) demo_parked = Some w' ∧
    S (parked_count (STATE w')) = parked_count (STATE demo_parked).
Proof.
  pose (s := Slot.mk 1 (Some "car"%string) true
               (Some (Vehicle.mk "TN38AB1234" "Priya" "car")) (Some 1000)).
  assert (Hf : list_find (λ x, Slot.id x = 1) (slots (STATE demo_parked)) = Some (0%nat, s))
    by reflexivity.
  destruct (proj2 (proj2 (parked_count_steps demo_parked)) 1 1861000 0%nat s
              (Vehicle.mk "TN38AB1234" "Priya" "car") Hf eq_refl eq_refl) as (w' & Hw & Hn).
  exists s, w'. by repeat split.
Defined.

(** ** Timers *)

Lemma dashboard_forEach (l : list Slot.t) st ts ls sh :
  (∀ s, s ∈ l → Slot.occupied s = true → is_Some (Slot.vehicle s)) →
  forEach (λ slot : Slot.t,
    if Slot.occupied slot then
      match Slot.vehicle slot with
      | None => raise TypeError
      | Some _ => modifyState (λ st, set_timers ({[Slot.id slot]} ∪ timers st) st)
      end
    else mret ()) l (mkWorld (set_timers ts st) ls sh)
  = Ret () (mkWorld
              (set_timers
                 (list_to_set (Slot.id <$> filter (λ s, Slot.occupied s = true) l) ∪ ts) st)
              ls sh).
Proof.
  revert ts. induction l as [|s l IH]; intros ts Hveh.
  - cbn. do 3 f_equal. set_solver.
  - cbn [forEach]. unfold mbind, M_bind. rewrite filter_cons.
    destruct (Slot.occupied s) eqn:Hocc.
    + destruct (Hveh s) as [v Hv]; [left | done |]. rewrite Hv. run.
      change (set_timers ?a (set_timers ?b st)) with (set_timers a st).
      rewrite IH by (intros; apply Hveh; [by right | done]).
      rewrite decide_True by done. do 3 f_equal. set_solver.
    + cbn. rewrite IH by (intros; apply Hveh; [by right | done]).
      by rewrite decide_False.
Qed.

Lemma renderDashboard_result w :
  (∀ s, s ∈ slots (STATE w) → Slot.occupied s = true → is_Some (Slot.vehicle s)) →
  renderDashboard w
  = Ret () (mkWorld (set_timers (occupied_ids (STATE w) ∪ timers (STATE w)) (STATE w))
                    (localStorage w) (shown w)).
Proof.
  intros Hveh. unfold renderDashboard. run.
  destruct w as [[ss hs cf th ts] ls sh].
  exact (dashboard_forEach ss (mkState ss hs cf th ts) ts ls sh Hveh).
Qed.

(** X16. When every occupied slot has its vehicle, showing the dashboard
    starts a timer for each occupied slot, keeps the timers there were and
    changes nothing else; showing it a second time changes nothing. *)
Theorem renderDashboard_timers_set (w : World) :
  (∀ s, s ∈ slots (STATE w) → Slot.occupied s = true → is_Some (Slot.vehicle s)) →
  ∃ w', renderDashboard w = Ret () w' ∧
        timers (STATE w') = occupied_ids (STATE w) ∪ timers (STATE w) ∧
        upto_timers w w' ∧
        renderDashboard w' = Ret () w'.
Proof.
  intros Hveh. rewrite (renderDashboard_result w Hveh). eexists. split; [done |].
  split; [done |]. split; [by eexists |].
  rewrite renderDashboard_result by done. cbn [STATE localStorage shown].
  destruct w as [[ss hs cf th ts] ls sh]. unfold set_timers, occupied_ids. cbn.
  do 3 f_equal. set_solver.
Qed.

Lemma renderDashboard_timers_set_witness :
  (∀ s, s ∈ slots (STATE demo_parked) → Slot.occupied s = true →
        is_Some (Slot.vehicle s)) ∧
  ∃ w', renderDashboard demo_parked = Ret () w' ∧
        timers (STATE w') = occupied_ids (STATE demo_parked) ∪ timers (STATE demo_parked) ∧
        upto_timers demo_parked w' ∧
        renderDashboard w' = Ret () w'.
Proof.
  assert (∀ s, s ∈ slots (STATE demo_parked) → Slot.occupied s = true →
               is_Some (Slot.vehicle s)) as Hveh.
  { intros s Hs Hocc.
    assert (slots (STATE demo_parked)
            = [Slot.mk 1 (Some "car"%string) true
                 (Some (Vehicle.mk "TN38AB1234" "Priya" "car")) (Some 1000);
               Slot.mk 2 (Some "car"%string) false None None;
               Slot.mk 3 (Some "car"%string) false None None]) as Hl by reflexivity.
    rewrite Hl, !elem_of_cons, elem_of_nil in Hs.
    destruct Hs as [-> | [-> | [-> | []]]]; by eauto. }
  split; [exact Hveh |].
  exact (renderDashboard_timers_set demo_parked Hveh).
Defined.

Lemma world_ok_vehicles cfg w :
  world_ok cfg w →
  ∀ s, s ∈ slots (STATE w) → Slot.occupied s = true → is_Some (Slot.vehicle s).
Proof.
  intros Hok s [i Hi]%list_elem_of_lookup Hocc.
  destruct (world_ok_session cfg w i s Hok Hi Hocc) as (v & _ & -> & _). eauto.
Qed.

(** X17. In a world the page has reached, a removal that is confirmed ends
    on the dashboard with no timer left for the slot it vacated, with a
    timer for every slot still occupied, and with no other timer added. *)
Theorem removal_stops_timer (cfg : Config.t) (w : World) (slotId now : Z)
    (i : nat) (s : Slot.t) :
  reachable cfg w →
  list_find (λ x, Slot.id x = slotId) (slots (STATE w)) = Some (i, s) →
  Slot.occupied s = true →
  ∃ w', removeVehicle slotId now true w = Ret () w' ∧
        (slotId ∉ timers (STATE w')) ∧
        timers (STATE w') = occupied_ids (STATE w') ∪ (timers (STATE w) ∖ {[slotId]}).
Proof.
  intros Hreach Hfind Hocc.
  pose proof (reachable_ok cfg w Hreach) as Hok.
  pose proof (reachable_ids_NoDup cfg w Hreach) as Hnd.
  pose proof Hfind as (Hi & Hid & _)%list_find_Some.
  destruct (world_ok_session cfg w i s Hok Hi Hocc) as (v & t & Hveh & Ht).
  assert (∃ w1, outcome (removeVehicle slotId now true) w = Some w1
                ∧ removed w i s v now w1) as (w1 & _ & Hrem)
    by (by apply ends_outcome, removeVehicle_confirmed).
  pose proof (removed_ok cfg w i s v now w1 Hok Hi Hrem) as Hok1.
  unfold removeVehicle, removeVehicleFlow. run.
  rewrite Hfind, Hocc, Hveh. cbn [negb]. run.
  unfold removeVehicle_confirm. run. cbn [r_slot r_now r_duration r_fee].
  rewrite Hi, Hveh. run. unfold navigate. rewrite decide_True by done.
  match goal with |- context [renderDashboard ?w2] => set (w2' := w2) end.
  assert (slots (STATE w2') = slots (STATE w1)) as Hss
    by (destruct Hrem as (-> & _); reflexivity).
  rewrite (renderDashboard_result w2')
    by (rewrite Hss; by apply (world_ok_vehicles cfg w1)).
  run. eexists. split; [reflexivity |]. cbn [STATE timers set_timers].
  assert (slotId ∉ occupied_ids (STATE w2')) as Hnot.
  { unfold occupied_ids. rewrite elem_of_list_to_set, list_elem_of_fmap.
    intros (s' & Hid' & [Hocc' [j Hj]%list_elem_of_lookup]%list_elem_of_filter).
    cbn [w2' STATE slots set_slots set_history set_timers] in Hj.
    destruct (decide (j = i)) as [-> | Hne].
    - rewrite list_lookup_insert_eq in Hj by (by eapply lookup_lt_Some).
      injection Hj as <-. done.
    - rewrite list_lookup_insert_ne in Hj by done.
      assert (j = i); [| done].
      apply (NoDup_lookup (Slot.id <$> slots (STATE w)) j i slotId); [done | |].
      + rewrite list_lookup_fmap, Hj. cbn. by rewrite Hid'.
      + rewrite list_lookup_fmap, Hi. cbn. by rewrite Hid. }
  split; [set_solver |].
  unfold occupied_ids in *. cbn [w2' STATE slots timers set_slots set_history set_timers].
  reflexivity.
Qed.

Lemma removal_stops_timer_witness :
  reachable small_config demo_parked ∧
  list_find (λ x, Slot.id x = 1) (slots (STATE demo_parked))
  = Some (0%nat, Slot.mk 1 (Some "car"%string) true
                   (Some (Vehicle.mk "TN38AB1234" "Priya" "car")) (Some 1000)) ∧
  ∃ w', removeVehicle 1 1861000 true demo_parked = Ret () w' ∧
        (1 ∉ timers (STATE w')) ∧
        timers (STATE w')
        = occupied_ids (STATE w') ∪ (timers (STATE demo_parked) ∖ {[1]}).
Proof.
  split; [exact demo_parked_reachable |]. split; [reflexivity |].
  exact (removal_stops_timer small_config demo_parked 1 1861000 0 _
           demo_parked_reachable eq_refl eq_refl).
Defined.

(** ** Reset, theme and loading *)



(** X19. Once the stored snapshot carries the theme [light], the theme
    button only reloads the page: after a click the theme of [STATE] is
    [light] again and the snapshot is as it was. *)
Theorem theme_stays_light (cfg : Config.t) (path : string) (w : World) (st : State) :
  localStorage w = Some (Text_json (stringify_persist st)) →
  theme st = "light"%string →
  theme (STATE w) = "light"%string →
  ∃ w', after cfg (ThemeClick path) w = Some w' ∧
        theme (STATE w') = "light"%string ∧
        localStorage w' = localStorage w.
Proof.
  intros Hls Hst Hth.
  unfold after, outcome. cbn [handle]. unfold themeToggle. run.
  rewrite decide_False by (by rewrite Hth).
  unfold page_load, boot. run. rewrite Hls, load_snapshot. cbn [STATE localStorage shown].
  match goal with |- context [initSlots ?st1] =>
    destruct (initSlots_frame st1) as (_ & _ & Ht1 & _)
  end.
  nav; eexists; (split; [reflexivity |]);
    cbn [STATE localStorage theme set_timers]; by rewrite Ht1.
Qed.

Lemma demo_light_reachable : reachable small_config demo_light.
Proof.
  apply (reach_next _ (mkWorld (set_theme "light" (STATE demo_world)) None [])
           (EntrySubmit "TN38AB1234" "Priya" "car" 1000)); [| reflexivity].
  apply (reach_next _ demo_world (ThemeClick "/")); [| reflexivity].
  by apply (reach_open _ "/"%string).
Qed.

Lemma theme_stays_light_witness :
  reachable small_config demo_light ∧
  (∃ st, localStorage demo_light = Some (Text_json (stringify_persist st)) ∧
         theme st = "light"%string) ∧
  theme (STATE demo_light) = "light"%string ∧
  ∃ w', after small_config (ThemeClick "/") demo_light = Some w' ∧
        theme (STATE w') = "light"%string ∧
        localStorage w' = localStorage demo_light.
Proof.
  split; [exact demo_light_reachable |].
  split; [exists (STATE demo_light); by split |].
  split; [reflexivity |].
  exact (theme_stays_light small_config "/" demo_light (STATE demo_light)
           eq_refl eq_refl eq_refl).
Defined.

Lemma Object_assign_again data w w1 :
  Object_assign_STATE data w = Ret () w1 →
  Object_assign_STATE data w1 = Ret () w1 ∧
  localStorage w1 = localStorage w ∧ shown w1 = shown w.
Proof.
  unfold Object_assign_STATE, assigned. run.
  destruct (member data "slots") as [v1|];
    [destruct (slots_of_json v1); [| done] |];
    (destruct (member data "history") as [v2|];
      [destruct (history_of_json v2); [| done] |]);
    (destruct (member data "config") as [v3|];
      [destruct (config_of_json v3); [| done] |]);
    (destruct (member data "theme") as [v4|];
      [destruct (as_str v4); [| done] |]);
    run; by intros [= <-].
Qed.

(** X20. [load] changes nothing when it runs a second time: the world it
    leaves is the world it leaves again. *)
Theorem load_idempotent (w w1 : World) :
  load w = Ret () w1 → load w1 = Ret () w1.
Proof.
  intros Hload. pose proof Hload as Hsame. revert Hload.
  destruct w as [st ls sh]. unfold load at 1, try_catch. run.
  destruct ls as [[| |data]|]; cbn [JSON_parse]; run;
    try (intros [= <-]; exact Hsame).
  destruct data as [| | | | |props]; cbn [property]; run;
    try (intros [= <-]; exact Hsame).
  destruct (truthy (member (JObj props) "slots")) eqn:Hs;
    [| intros [= <-]; exact Hsame].
  destruct (truthy (member (JObj props) "history")) eqn:Hh;
    [| intros [= <-]; exact Hsame].
  clear Hsame.
  destruct (Object_assign_STATE (JObj props) (mkWorld st (Some (Text_json (JObj props))) sh))
    as [[] w2|e w2|] eqn:Hassign; [| | done].
  - intros [= <-]. apply Object_assign_again in Hassign as (Hagain & Hls & Hsh).
    destruct w2 as [st2 ls2 sh2]. cbn [localStorage shown] in Hls, Hsh. subst ls2 sh2.
    unfold load, try_catch. run. cbn [JSON_parse]. run.
    unfold property. run. by rewrite Hs, Hh, Hagain.
  - intros _. exfalso. revert Hassign. unfold Object_assign_STATE, assigned. run.
    repeat case_match; done.
Qed.

Lemma load_idempotent_witness :
  let w := mkWorld (STATE0 small_config)
             (Some (Text_json (stringify_persist (STATE demo_parked)))) [] in
  let w1 := mkWorld (mkState (slots (STATE demo_parked)) (history (STATE demo_parked))
                       (config (STATE demo_parked)) (theme (STATE demo_parked)) ∅)
              (Some (Text_json (stringify_persist (STATE demo_parked)))) [] in
  load w = Ret () w1 ∧ load w1 = Ret () w1.
Proof.
  split; [apply load_snapshot |].
  exact (load_idempotent _ _ (load_snapshot (STATE0 small_config) (STATE demo_parked) [])).
Defined.

(** X21. [initSlots] fills an empty registry only: it leaves a registry
    that has slots as it is, whatever its size, and running it a second
    time changes nothing. *)
Theorem initSlots_fills_once (st : State) :
  (slots st ≠ [] → initSlots st = st) ∧
  initSlots (initSlots st) = initSlots st.
Proof.
  split; [apply initSlots_nonempty |].
  destruct (decide (slots st = [])) as [Hnil | Hne];
    [| by rewrite !initSlots_nonempty by (by rewrite ?initSlots_nonempty)].
  destruct (decide (slots (initSlots st) = [])) as [Hnil' | Hne'];
    [| by rewrite (initSlots_nonempty (initSlots st))].
  rewrite (initSlots_empty st Hnil) in *. cbn [slots set_slots] in Hnil'.
  rewrite Hnil'. apply fmap_nil_inv in Hnil'.
  rewrite initSlots_empty by done.
  change (config (set_slots [] st)) with (config st).
  by rewrite Hnil'.
Qed.

Lemma initSlots_fills_once_witness :
  slots (STATE demo_parked) ≠ [] ∧ initSlots (STATE demo_parked) = STATE demo_parked.
Proof.
  assert (Hne : slots (STATE demo_parked) ≠ []) by (vm_compute; discriminate).
  split; [exact Hne |].
  exact (proj1 (initSlots_fills_once (STATE demo_parked)) Hne).
Defined.
